(** * Gridsome: the per-type node store and the schema composition passes

    A shallow embedding of

    - [lib/store/ContentType.js]: [addNode], [getNode], [removeNode] and
      [updateNode] of a content type, over the document collection that
      the constructor receives;
    - the schema builder ([createSchema]): [createType],
      [processObjectFields], [getFieldResolver] and [addResolvers].

    JavaScript objects are records, [undefined] is [None], an exception is
    the [Throw] completion, and the emitter and the logger are lists that
    grow at the end. *)

From Stdlib Require Import List Bool ZArith Ascii.
From stdpp Require Import base option list strings gmap.

Open Scope string_scope.
Open Scope list_scope.
Set Warnings "-register-all".

(** ** JavaScript preliminaries *)

(** [Error] and [TypeError] objects, with their [message]. *)
Inductive jsError :=
| Error (message : string)
| TypeError (message : string).

Definition message (e : jsError) : string :=
  match e with Error m => m | TypeError m => m end.

(** How a call ends: [return a] or [throw e]. *)
Inductive completion (A : Type) :=
| Return (a : A)
| Throw (e : jsError).
Arguments Return {A} a.
Arguments Throw {A} e.

(** Truthiness of a value that is a string or [undefined]. *)
Definition truthy (v : option string) : bool :=
  match v with
  | Some s => negb (bool_decide (s = ""))
  | None => false
  end.

(** [a || b] on such values. *)
Definition js_or (a b : option string) : option string :=
  if truthy a then a else b.

(** [`${v}`] in a template literal. *)
Definition template (v : option string) : string :=
  match v with Some s => s | None => "undefined" end.

(** The properties that every plain object inherits from [Object.prototype]:
    [o[k]] is defined for these names on an object that has no key [k] of
    its own. *)
Definition inheritedKeys : list string :=
  ["constructor"; "hasOwnProperty"; "isPrototypeOf"; "propertyIsEnumerable";
   "toLocaleString"; "toString"; "valueOf"; "__proto__";
   "__defineGetter__"; "__defineSetter__"; "__lookupGetter__"; "__lookupSetter__"].

Definition inherited (k : string) : bool := bool_decide (k ∈ inheritedKeys).

(** ** The node store *)

Module NodeStore.

(** Field values of a node. *)
Inductive value :=
| VNull
| VBool (b : bool)
| VNum (z : Z)
| VStr (s : string)
| VList (l : list value).

(** A node, and equally the options object it is made from: [id], [$uid],
    [$loki] and the remaining properties. *)
Record Node := mkNode {
  id : option string;
  uid : option string;
  loki : option nat;
  fields : list (string * value)
}.

Definition set_id (v : option string) (n : Node) : Node :=
  {| id := v; uid := uid n; loki := loki n; fields := fields n |}.

Definition set_loki (v : option nat) (n : Node) : Node :=
  {| id := id n; uid := uid n; loki := v; fields := fields n |}.

(** *** The collection *)

(** Modelled from the spec: the document collection behind a content type,
    an object of the database library that the constructor is handed. It
    keeps the nodes in insertion order, gives each inserted document the
    next [$loki] row number, keeps [id] unique, and rejects an insert or an
    update by throwing, leaving its rows as they were. *)
Record Collection := mkCollection {
  data : list Node;
  maxId : nat
}.

(** The query objects the store builds: [{ id }], [{ $uid }], and the
    empty query (also what [undefined] stands for). *)
Inductive query :=
| QueryAll
| ById (v : option string)
| ByUid (v : option string).

Definition matches (q : query) (n : Node) : bool :=
  match q with
  | QueryAll => true
  | ById v => bool_decide (id n = v)
  | ByUid v => bool_decide (uid n = v)
  end.

(** Modelled from the spec: [findOne(query)], the first matching row or
    null, and [find(query)], all of them. *)
Definition findOne (q : query) (c : Collection) : option Node :=
  List.find (matches q) (data c).

Definition find (q : query) (c : Collection) : list Node :=
  List.filter (matches q) (data c).

Definition hasId (s : string) (n : Node) : bool :=
  bool_decide (id n = Some s).

Definition duplicateKey (s : string) : jsError :=
  Error ("Duplicate key for property id: " +:+ s).

(** The unique index on [id]: a defined key that is already taken. *)
Definition taken (v : option string) (c : Collection) : option string :=
  match v with
  | Some s => if List.existsb (hasId s) (data c) then Some s else None
  | None => None
  end.

(** Modelled from the spec: [insert(doc)]. A document that carries a row
    number or a taken [id] is rejected; otherwise it gets the next row
    number and goes to the end. *)
Definition insert (doc : Node) (c : Collection) : jsError + (Node * Collection) :=
  match loki doc with
  | Some _ => inl (Error "Document is already in collection, please use update()")
  | None =>
      match taken (id doc) c with
      | Some s => inl (duplicateKey s)
      | None =>
          let doc' := set_loki (Some (S (maxId c))) doc in
          inr (doc', {| data := data c ++ [doc']; maxId := S (maxId c) |})
      end
  end.

Definition hasLoki (k : nat) (n : Node) : bool :=
  bool_decide (loki n = Some k).

(** [data[position] = doc], at the position of the row numbered [k]. *)
Fixpoint replaceRow (k : nat) (doc : Node) (l : list Node) : list Node :=
  match l with
  | [] => []
  | r :: l' => if hasLoki k r then doc :: l' else r :: replaceRow k doc l'
  end.

(** Modelled from the spec: [update(doc)]. The row with the document's
    row number is replaced, unless there is none or the document changes
    the [id] to a taken one. *)
Definition update (doc : Node) (c : Collection) : jsError + Collection :=
  match loki doc with
  | None => inl (Error "Trying to update unsynced document. Please save the document first by using insert() or addMany()")
  | Some k =>
      match List.find (hasLoki k) (data c) with
      | None => inl (Error "Trying to update a document not in collection.")
      | Some old =>
          match (if bool_decide (id old = id doc) then None else taken (id doc) c) with
          | Some s => inl (duplicateKey s)
          | None => inr {| data := replaceRow k doc (data c); maxId := maxId c |}
          end
      end
  end.

(** Modelled from the spec: [findAndRemove(query)] removes every matching
    row. *)
Definition findAndRemove (q : query) (c : Collection) : Collection :=
  {| data := List.filter (fun n => negb (matches q n)) (data c); maxId := maxId c |}.

(** [id] is unique among the rows that have one. *)
Definition uniqueIds (c : Collection) : Prop := NoDup (omap id (data c)).

(** *** The content type *)

Inductive event :=
| EvAdd (node : Node)
| EvRemove (node : Node)
| EvUpdate (node oldNode : Node).

(** The state a content type's methods read and write: its collection, the
    events emitted so far, and the warnings logged so far (message, tag). *)
Record ContentType := mkContentType {
  typeName : string;
  _collection : Collection;
  _events : list event;
  warnings : list (string * string)
}.

Definition set_collection (c : Collection) (this : ContentType) : ContentType :=
  {| typeName := typeName this; _collection := c;
     _events := _events this; warnings := warnings this |}.

Definition emit (e : event) (this : ContentType) : ContentType :=
  {| typeName := typeName this; _collection := _collection this;
     _events := _events this ++ [e]; warnings := warnings this |}.

Definition warn (msg tag : string) (this : ContentType) : ContentType :=
  {| typeName := typeName this; _collection := _collection this;
     _events := _events this; warnings := warnings this ++ [(msg, tag)] |}.

Definition count (this : ContentType) : nat := length (data (_collection this)).

(** The argument of [getNode] and [removeNode]: a string id, or a query
    object ([undefined] included). *)
Inductive idOrQuery :=
| IdString (s : string)
| IdQuery (q : query).

(** [typeof id === 'string' ? { id } : id] *)
Definition toQuery (a : idOrQuery) : query :=
  match a with
  | IdString s => ById (Some s)
  | IdQuery q => q
  end.

(** A node's [id] passed on as an argument. *)
Definition idArg (v : option string) : idOrQuery :=
  match v with
  | Some s => IdString s
  | None => IdQuery QueryAll
  end.

Section Methods.

(** [normalizeNodeOptions(options, contentType, useFallbacks)] and the
    [addNode] hook chain [(options, contentType) -> node | falsy] are
    collaborators of the store; the methods are stated for any two such
    functions. Nodes are values: what the hook chain returns is a document
    of its own, not one that the collection already holds. *)
Variable normalizeNodeOptions : Node -> ContentType -> bool -> Node.
Variable hooks_addNode : Node -> ContentType -> option Node.

Definition addNode (options : Node) (this : ContentType)
  : completion (option Node) * ContentType :=
  let options := normalizeNodeOptions options this true in
  match hooks_addNode options this with
  | None => (Return None, this)
  | Some node =>
      match insert node (_collection this) with
      | inl err =>
          (Return None,
           warn ("Failed to add node: " +:+ message err) (typeName this) this)
      | inr (node, c) =>
          (Return (Some node), emit (EvAdd node) (set_collection c this))
      end
  end.

Definition getNode (a : idOrQuery) (this : ContentType) : option Node :=
  findOne (toQuery a) (_collection this).

Definition removeNode (a : idOrQuery) (this : ContentType)
  : completion (option Node) * ContentType :=
  match findOne (toQuery a) (_collection this) with
  | None => (Throw (TypeError "Cannot read property '$uid' of null"), this)
  | Some node =>
      let c := findAndRemove (ByUid (uid node)) (_collection this) in
      (Return None, emit (EvRemove node) (set_collection c this))
  end.

(** The query [updateNode] looks the prior node up with. *)
Definition lookupQuery (options : Node) : query :=
  if truthy (uid options) then ByUid (uid options) else ById (id options).

Definition updateNode (options : Node) (this : ContentType)
  : completion (option Node) * ContentType :=
  let options := normalizeNodeOptions options this true in
  match getNode (IdQuery (lookupQuery options)) this with
  | None =>
      (Throw (Error ("Could not find node to update with id: " +:+ template (id options))),
       this)
  | Some oldNode =>
      match hooks_addNode options this with
      | None => removeNode (idArg (id oldNode)) this
      | Some node =>
          let node := set_loki (loki oldNode)
                        (set_id (js_or (id options) (id oldNode)) node) in
          match update node (_collection this) with
          | inl err =>
              (Return None,
               warn ("Failed to update node: " +:+ message err) (typeName this) this)
          | inr c =>
              (Return (Some node),
               emit (EvUpdate node oldNode) (set_collection c this))
          end
      end
  end.

(** What is said of an update under an id that no node has, word for
    word: the call throws and the store is as it was. *)
Definition fatalOnAbsentId (options : Node) (this : ContentType) : Prop :=
  (∀ n, n ∈ data (_collection this) →
        id n ≠ id (normalizeNodeOptions options this true)) →
  ∃ e, updateNode options this = (Throw e, this).

(** What is said of an update that the hook chain vetoes, word for word:
    the call returns null, there is one node fewer, and the event emitted
    is [remove] with the prior node. *)
Definition vetoRemovesPriorNode (options : Node) (this : ContentType) : Prop :=
  ∀ oldNode,
    getNode (IdQuery (lookupQuery (normalizeNodeOptions options this true))) this
      = Some oldNode →
    hooks_addNode (normalizeNodeOptions options this true) this = None →
    ∃ this',
      updateNode options this = (Return None, this') ∧
      S (count this') = count this ∧
      _events this' = _events this ++ [EvRemove oldNode].

End Methods.

(** [findNode(query)], [findNodes(query)] and [data()] hand the query to
    the collection. *)
Definition findNode (q : query) (this : ContentType) : option Node :=
  findOne q (_collection this).

Definition findNodes (q : query) (this : ContentType) : list Node :=
  find q (_collection this).

Definition allNodes (this : ContentType) : list Node :=
  find QueryAll (_collection this).

(** Every row has a row number, no two rows share one, and none is above
    the last one given out. *)
Definition rowsNumbered (c : Collection) : Prop :=
  NoDup (omap loki (data c)) ∧
  ∀ n, n ∈ data c → ∃ k, loki n = Some k ∧ (k ≤ maxId c)%nat.

End NodeStore.

(** ** The declarations of a content type *)

Module ContentTypeOptions.

(** The options of a reference, of which [typeName] names the target. *)
Record Reference := mkReference {
  typeName : option string;
  others : list (string * string)
}.

(** What [addReference] is given: the name of the target type, or the
    options object. *)
Inductive referenceOptions :=
| TargetName (s : string)
| ReferenceObject (o : Reference).

Section Declarations.

(** The options of a schema field are kept as they are given. *)
Variable FieldDeclaration : Type.

(** [createFieldName(name, camelCased)] of the store's utilities. *)
Variable createFieldName : string → bool → string.

(** [this.options.refs], [this.options.fields] and
    [this._camelCasedFieldNames]. *)
Record Declarations := mkDeclarations {
  refs : gmap string Reference;
  fields : gmap string FieldDeclaration;
  _camelCasedFieldNames : bool
}.

(** [typeof options === 'string' ? { typeName: options } : options] *)
Definition referenceOf (options : referenceOptions) : Reference :=
  match options with
  | TargetName s => {| typeName := Some s; others := [] |}
  | ReferenceObject o => o
  end.

Definition addReference (fieldName : string) (options : referenceOptions)
    (this : Declarations) : Declarations :=
  {| refs := <[createFieldName fieldName (_camelCasedFieldNames this) := referenceOf options]>
               (refs this);
     fields := fields this;
     _camelCasedFieldNames := _camelCasedFieldNames this |}.

Definition addSchemaField (fieldName : string) (options : FieldDeclaration)
    (this : Declarations) : Declarations :=
  {| refs := refs this;
     fields := <[fieldName := options]> (fields this);
     _camelCasedFieldNames := _camelCasedFieldNames this |}.

End Declarations.

End ContentTypeOptions.

(** ** The schema builder *)

(** The composers and the registry are objects of the graphql-compose
    library; the operations that the builder calls on them ([getOTC],
    [getFieldConfig], [hasField], [setField], [extendField], [getResolver],
    [getFieldTC], [createTemp]) are given by what they do to the fields of a
    type. The library keeps the fields of a type in a plain object. *)

Module Schema.

(** A GraphQL type reference: a named type, a list of, or a non-null. *)
Inductive gqlType :=
| Named (name : string)
| ListOf (ofType : gqlType)
| NonNull (ofType : gqlType).

Fixpoint getNamedType (t : gqlType) : string :=
  match t with
  | Named n => n
  | ListOf t' => getNamedType t'
  | NonNull t' => getNamedType t'
  end.

(** A list, or a non-null list. *)
Definition isPlural (t : gqlType) : bool :=
  match t with
  | ListOf _ => true
  | NonNull (ListOf _) => true
  | _ => false
  end.

(** Resolve functions [(obj, args, ctx, info) => ...]: the default one,
    one written by an author (known by name), and the closure that the
    builder makes,
    [(obj, args, ctx, info) => resolve(obj, args, ctx, { ...info, originalResolver })]. *)
Inductive resolveFn :=
| defaultFieldResolver
| Authored (name : string)
| WithOriginal (resolve : option resolveFn) (originalResolver : resolveFn).

(** The [info] argument, as far as the builder touches it. *)
Record resolveInfo := mkInfo {
  fieldName : string;
  originalResolver : option resolveFn
}.

(** What calling a resolve function comes to: a call of a base function
    with the [info] it receives ([obj], [args] and [ctx] are handed on
    untouched), or a [TypeError] when a closure's [resolve] is undefined. *)
Inductive invocation :=
| Calls (fn : resolveFn) (info : resolveInfo)
| NotAFunction.

Fixpoint call (r : resolveFn) (info : resolveInfo) : invocation :=
  match r with
  | WithOriginal (Some f) o =>
      call f {| fieldName := fieldName info; originalResolver := Some o |}
  | WithOriginal None _ => NotAFunction
  | base => Calls base info
  end.

Inductive extValue :=
| ExtBool (b : bool)
| ExtString (s : string).

Definition truthyExt (v : option extValue) : bool :=
  match v with
  | Some (ExtBool b) => b
  | Some (ExtString s) => negb (bool_decide (s = ""))
  | None => false
  end.

Abbreviation argsMap := (gmap string gqlType).
Abbreviation extensionsMap := (gmap string extValue).

(** [{ ...a }] of a map that may be undefined. *)
Definition spread (a : option argsMap) : argsMap := default ∅ a.

(** [{ ...a, ...b }]: the keys of [b] win. *)
Definition spread2 (a b : option argsMap) : argsMap := spread b ∪ spread a.

Record FieldConfig := mkField {
  type : gqlType;
  args : option argsMap;
  resolve : option resolveFn;
  extensions : extensionsMap
}.

(** A resolver registered on a type composer, as the builder reads it. *)
Record Resolver := mkResolver {
  resolverArgs : option argsMap;
  resolverResolve : option resolveFn
}.

Inductive composerKind :=
| ObjectTypeComposer
| UnionTypeComposer
| ScalarTypeComposer.

(** A type composer; [fields] keeps the insertion order of the keys. *)
Record TypeComposer := mkTC {
  typeName : string;
  kind : composerKind;
  fields : list (string * FieldConfig);
  interfaces : list string;
  resolvers : gmap string Resolver;
  typeExtensions : extensionsMap
}.

Definition isObject (tc : TypeComposer) : bool :=
  match kind tc with ObjectTypeComposer => true | _ => false end.

Definition hasInterface (i : string) (tc : TypeComposer) : bool :=
  bool_decide (i ∈ interfaces tc).

Definition getExtension (e : string) (tc : TypeComposer) : option extValue :=
  typeExtensions tc !! e.

Definition with_fields (fs : list (string * FieldConfig)) (tc : TypeComposer) : TypeComposer :=
  {| typeName := typeName tc; kind := kind tc; fields := fs;
     interfaces := interfaces tc; resolvers := resolvers tc;
     typeExtensions := typeExtensions tc |}.

Definition with_typeExtensions (e : extensionsMap) (tc : TypeComposer) : TypeComposer :=
  {| typeName := typeName tc; kind := kind tc; fields := fields tc;
     interfaces := interfaces tc; resolvers := resolvers tc;
     typeExtensions := e |}.

(** Objects keyed by strings, in key order. *)
Fixpoint lookupKey {A : Type} (k : string) (l : list (string * A)) : option A :=
  match l with
  | [] => None
  | (k', v) :: l' => if bool_decide (k' = k) then Some v else lookupKey k l'
  end.

(** [o[k] = v]: in place when the key exists, at the end otherwise. *)
Fixpoint assignKey {A : Type} (k : string) (v : A) (l : list (string * A)) : list (string * A) :=
  match l with
  | [] => [(k, v)]
  | (k', v') :: l' =>
      if bool_decide (k' = k) then (k, v) :: l' else (k', v') :: assignKey k v l'
  end.

Definition getFieldConfig (tc : TypeComposer) (f : string) : option FieldConfig :=
  lookupKey f (fields tc).

(** [hasField] is [!!fields[name]] on the plain object of the fields: a
    name that every object inherits counts as a field, whether the type has
    it or not. *)
Definition hasField (tc : TypeComposer) (f : string) : bool :=
  match getFieldConfig tc f with Some _ => true | None => inherited f end.

Definition setField (tc : TypeComposer) (f : string) (fc : FieldConfig) : TypeComposer :=
  with_fields (assignKey f fc (fields tc)) tc.

(** The error of a composer asked for a field it does not have. *)
Definition noSuchField (tc : TypeComposer) (f : string) : jsError :=
  Error ("Cannot get field '" +:+ f +:+ "' from type '" +:+ typeName tc
         +:+ "'. Field does not exist.").

(** The error of a composer asked for the config of a name that its fields
    inherit: what it finds there is a member of [Object.prototype], not a
    field config, and reading it as one is a [TypeError]; the text stands
    for the message of the engine. *)
Definition notAFieldConfig (tc : TypeComposer) (f : string) : jsError :=
  TypeError ("Cannot read the field config of '" +:+ typeName tc +:+ "." +:+ f +:+ "'").

(** The part of a field config that [extendField] is given by the builder:
    [type] (when the key is there), [args] and [resolve]. *)
Record partialFieldConfig := mkPartial {
  newType : option gqlType;
  newArgs : option argsMap;
  newResolve : resolveFn
}.

(** [extendField]: [{ ...prev, ...partial }], extensions kept. *)
Definition extendField (tc : TypeComposer) (f : string) (p : partialFieldConfig)
  : completion TypeComposer :=
  match getFieldConfig tc f with
  | None =>
      Throw (Error ("Cannot extend field '" +:+ f +:+ "' from type '" +:+ typeName tc
                    +:+ "'. Field does not exist."))
  | Some prev =>
      Return (setField tc f
                {| type := default (type prev) (newType p);
                   args := newArgs p;
                   resolve := Some (newResolve p);
                   extensions := extensions prev |})
  end.

(** [getResolver] throws for a name that is not registered on the type. *)
Definition getResolver (name : string) (tc : TypeComposer) : completion Resolver :=
  match resolvers tc !! name with
  | Some r => Return r
  | None =>
      Throw (Error ("Type " +:+ typeName tc +:+ " does not have resolver with name '"
                    +:+ name +:+ "'"))
  end.

(** The type registry: the composers by name, in registration order. *)
Definition SchemaComposer := list (string * TypeComposer).

Definition get (schemaComposer : SchemaComposer) (name : string) : option TypeComposer :=
  lookupKey name schemaComposer.

Definition set (schemaComposer : SchemaComposer) (name : string) (tc : TypeComposer) : SchemaComposer :=
  assignKey name tc schemaComposer.

(** [getOTC] throws unless the name is registered as an Object type. *)
Definition getOTC (schemaComposer : SchemaComposer) (name : string) : completion TypeComposer :=
  match get schemaComposer name with
  | Some tc =>
      if isObject tc then Return tc
      else Throw (Error ("Cannot find ObjectTypeComposer with name " +:+ name))
  | None => Throw (Error ("Cannot find ObjectTypeComposer with name " +:+ name))
  end.

(** The scalars of GraphQL itself, known to the library under their names
    without being registered. *)
Definition specifiedScalars : list string := ["String"; "Int"; "Float"; "Boolean"; "ID"].

Definition quoted (s : string) : string :=
  String (ascii_of_nat 34) s +:+ String (ascii_of_nat 34) EmptyString.

Definition noSuchType (n : string) : jsError :=
  Error ("Type with name " +:+ quoted n +:+ " does not exists").

(** The composer of a field's named type. The type is resolved by name: the
    registry's composer, a scalar composer for a scalar of GraphQL itself,
    and an error for any other name. *)
Definition getFieldTC (schemaComposer : SchemaComposer) (fc : FieldConfig)
  : completion TypeComposer :=
  match get schemaComposer (getNamedType (type fc)) with
  | Some tc => Return tc
  | None =>
      if bool_decide (getNamedType (type fc) ∈ specifiedScalars) then
        Return {| typeName := getNamedType (type fc); kind := ScalarTypeComposer;
                  fields := []; interfaces := []; resolvers := ∅; typeExtensions := ∅ |}
      else Throw (noSuchType (getNamedType (type fc)))
  end.

(** [table[name]] on a plain object of resolvers: the entry of that name,
    or, for a name that every object inherits, the inherited member, which
    has neither [args] nor [resolve]. *)
Definition lookupResolver (table : gmap string Resolver) (name : string) : option Resolver :=
  match table !! name with
  | Some r => Some r
  | None =>
      if inherited name then Some {| resolverArgs := None; resolverResolve := None |}
      else None
  end.

(** *** Declarative type descriptors *)

Inductive CreatedGraphQLType :=
| Object
| Union
| OtherType (tag : string).

(** A field of a descriptor: a bare type, or a plain object with the field
    config and an [options] block of extensions. *)
Inductive fieldDefinition :=
| FieldType (t : gqlType)
| FieldObject (config : FieldConfig) (fieldOptions : option extensionsMap).

Record typeOptions := mkTypeOptions {
  name : option string;
  fieldDefinitions : list (string * fieldDefinition);
  interfaceNames : list string;
  extensionOptions : option extensionsMap
}.

Record createdType := mkCreatedType {
  createdAs : CreatedGraphQLType;
  options : typeOptions
}.

(** [Array.prototype.join]: an undefined element prints as nothing. *)
Fixpoint join (sep : string) (path : list (option string)) : string :=
  match path with
  | [] => ""
  | [x] => default "" x
  | x :: rest => default "" x +:+ sep +:+ join sep rest
  end.

Definition fieldOfDefinition (d : fieldDefinition) : FieldConfig :=
  match d with
  | FieldType t => {| type := t; args := None; resolve := None; extensions := ∅ |}
  | FieldObject config _ => config
  end.

(** [isPlainObject(fieldOptions) ? fieldOptions.options : {}], then [|| {}]. *)
Definition fieldExtensionsOf (d : option fieldDefinition) : extensionsMap :=
  match d with
  | Some (FieldObject _ (Some e)) => e
  | _ => ∅
  end.

Definition extendFieldExtensions (tc : TypeComposer) (f : string) (e : extensionsMap)
  : TypeComposer :=
  match getFieldConfig tc f with
  | None => tc
  | Some fc =>
      setField tc f {| type := type fc; args := args fc; resolve := resolve fc;
                       extensions := e ∪ extensions fc |}
  end.

(** [ObjectTypeComposer.createTemp] and [UnionTypeComposer.createTemp] on
    the options of a descriptor, under the name chosen for it. *)
Definition createTempObject (o : typeOptions) (n : string) : TypeComposer :=
  {| typeName := n; kind := ObjectTypeComposer;
     fields := List.map (fun kd => (fst kd, fieldOfDefinition (snd kd))) (fieldDefinitions o);
     interfaces := interfaceNames o; resolvers := ∅; typeExtensions := ∅ |}.

Definition createTempUnion (o : typeOptions) (n : string) : TypeComposer :=
  {| typeName := n; kind := UnionTypeComposer; fields := [];
     interfaces := []; resolvers := ∅; typeExtensions := ∅ |}.

(** An entry of a resolver overlay: [{ type, args, resolve }], each of
    them optional. *)
Record FieldOptions := mkFieldOptions {
  optType : option gqlType;
  optArgs : option argsMap;
  optResolve : option resolveFn
}.

Section Builder.

(** [createTypeName] and the table [scalarTypeResolvers] come from modules
    of the builder that are taken as given. *)
Variable createTypeName : string → string.
Variable scalarTypeResolvers : gmap string Resolver.

Definition createType (schemaComposer : SchemaComposer) (type : createdType)
    (path : option (list (option string))) : completion (option TypeComposer) :=
  let path := default [name (options type)] path in
  if negb (truthy (name (options type))) && bool_decide (length path = 1)
  then Throw (Error "Missing required type name.")
  else
    let name := if truthy (name (options type))
                then default "" (name (options type))
                else createTypeName (join " " path) in
    match createdAs type with
    | Object =>
        let typeComposer := createTempObject (options type) name in
        let typeComposer :=
          with_typeExtensions
            (default ∅ (extensionOptions (options type)) ∪ typeExtensions typeComposer)
            typeComposer in
        Return (Some
          (fold_left
             (fun tc fieldName =>
                extendFieldExtensions tc fieldName
                  (fieldExtensionsOf
                     (lookupKey fieldName (fieldDefinitions (options type)))))
             (List.map fst (fields typeComposer)) typeComposer))
    | Union => Return (Some (createTempUnion (options type) name))
    | OtherType _ => Return None
    end.

(** [addCreatedType] for a declarative descriptor ([isSDL] false);
    [schemaComposer.add] refuses a value that is not a type. *)
Definition addCreatedType (schemaComposer : SchemaComposer) (type : option TypeComposer)
  : completion SchemaComposer :=
  match type with
  | None => Throw (Error "Cannot create as TypeComposer the following value: undefined.")
  | Some tc =>
      Return (set schemaComposer (typeName tc)
                (with_typeExtensions
                   (<["isUserDefined" := ExtBool true]> (typeExtensions tc)) tc))
  end.

(** The resolver for a field of the given config: what [getFieldResolver]
    does once [getFieldTC] and [isFieldPlural] have found the field. *)
Definition fieldResolverOf (schemaComposer : SchemaComposer) (fc : FieldConfig)
  : completion (option Resolver) :=
  match getFieldTC schemaComposer fc with
  | Throw e => Throw e
  | Return fieldComposer =>
      if isObject fieldComposer && hasInterface "Node" fieldComposer then
        let isPlural := isPlural (type fc) in
        let resolverName := if isPlural then "findMany" else "findOne" in
        match getResolver resolverName fieldComposer with
        | Return r => Return (Some r)
        | Throw e => Throw e
        end
      else Return (lookupResolver scalarTypeResolvers (typeName fieldComposer))
  end.

Definition getFieldResolver (schemaComposer : SchemaComposer) (typeComposer : TypeComposer)
    (fieldName : string) : completion (option Resolver) :=
  match getFieldConfig typeComposer fieldName with
  | None => Throw (noSuchField typeComposer fieldName)
  | Some fc => fieldResolverOf schemaComposer fc
  end.

(** The body of the loop over the fields, for one field name. *)
Definition processObjectField (schemaComposer : SchemaComposer) (typeComposer : TypeComposer)
    (fieldName : string) : completion TypeComposer :=
  match getFieldConfig typeComposer fieldName with
  | None => Throw (noSuchField typeComposer fieldName)
  | Some fieldConfig =>
      match getFieldResolver schemaComposer typeComposer fieldName with
      | Throw e => Throw e
      | Return None => Return typeComposer
      | Return (Some resolver) =>
          let originalResolver := default defaultFieldResolver (resolverResolve resolver) in
          let resolve := default originalResolver (resolve fieldConfig) in
          extendField typeComposer fieldName
            {| newType := None;
               newArgs := Some (spread2 (resolverArgs resolver) (args fieldConfig));
               newResolve := WithOriginal (Some resolve) originalResolver |}
      end
  end.

Fixpoint processObjectFieldsLoop (schemaComposer : SchemaComposer) (fieldNames : list string)
    (typeComposer : TypeComposer) : completion TypeComposer :=
  match fieldNames with
  | [] => Return typeComposer
  | fieldName :: rest =>
      match processObjectField schemaComposer typeComposer fieldName with
      | Throw e => Throw e
      | Return typeComposer' => processObjectFieldsLoop schemaComposer rest typeComposer'
      end
  end.

Definition processObjectFields (schemaComposer : SchemaComposer) (typeComposer : TypeComposer)
  : completion TypeComposer :=
  let isUserDefined := getExtension "isUserDefined" typeComposer in
  if negb (isObject typeComposer) then Return typeComposer
  else if bool_decide (typeName typeComposer = "Query") then Return typeComposer
  else if negb (truthyExt isUserDefined) then Return typeComposer
  else processObjectFieldsLoop schemaComposer (List.map fst (fields typeComposer)) typeComposer.

(** [for (const typeComposer of schemaComposer.values()) processObjectFields(...)] *)
Fixpoint processAllObjectFields (schemaComposer : SchemaComposer) (names : list string)
  : completion SchemaComposer :=
  match names with
  | [] => Return schemaComposer
  | n :: rest =>
      match get schemaComposer n with
      | None => processAllObjectFields schemaComposer rest
      | Some tc =>
          match processObjectFields schemaComposer tc with
          | Throw e => Throw e
          | Return tc' => processAllObjectFields (set schemaComposer n tc') rest
          end
      end
  end.

(** The body of the inner loop of [addResolvers], for one field. *)
Definition addResolversField (typeName : string) (typeComposer : TypeComposer)
    (fieldName : string) (fieldOptions : FieldOptions) : completion TypeComposer :=
  if hasField typeComposer fieldName then
    match getFieldConfig typeComposer fieldName with
    | None => Throw (notAFieldConfig typeComposer fieldName)
    | Some field =>
        let originalResolver := default defaultFieldResolver (resolve field) in
        extendField typeComposer fieldName
          {| newType := Some (default (type field) (optType fieldOptions));
             newArgs := match optArgs fieldOptions with
                        | Some a => Some a
                        | None => args field
                        end;
             newResolve := WithOriginal (optResolve fieldOptions) originalResolver |}
    end
  else
    match optType fieldOptions with
    | None =>
        Throw (Error (typeName +:+ "." +:+ fieldName +:+ " must have a 'type' property."))
    | Some t =>
        Return (setField typeComposer fieldName
                  {| type := t; args := optArgs fieldOptions;
                     resolve := optResolve fieldOptions; extensions := ∅ |})
    end.

Fixpoint addResolversFields (typeName : string) (fields : list (string * FieldOptions))
    (typeComposer : TypeComposer) : completion TypeComposer :=
  match fields with
  | [] => Return typeComposer
  | (fieldName, fieldOptions) :: rest =>
      match addResolversField typeName typeComposer fieldName fieldOptions with
      | Throw e => Throw e
      | Return typeComposer' => addResolversFields typeName rest typeComposer'
      end
  end.

Fixpoint addResolvers (schemaComposer : SchemaComposer)
    (resolvers : list (string * list (string * FieldOptions))) : completion SchemaComposer :=
  match resolvers with
  | [] => Return schemaComposer
  | (typeName, fields) :: rest =>
      match getOTC schemaComposer typeName with
      | Throw e => Throw e
      | Return typeComposer =>
          match addResolversFields typeName fields typeComposer with
          | Throw e => Throw e
          | Return typeComposer' => addResolvers (set schemaComposer typeName typeComposer') rest
          end
      end
  end.

(** The config that the loop of [processObjectFields] leaves on a field
    for which [resolver] was picked, and on any field. *)
Definition wired (fc : FieldConfig) (resolver : Resolver) : FieldConfig :=
  let originalResolver := default defaultFieldResolver (resolverResolve resolver) in
  {| type := type fc;
     args := Some (spread2 (resolverArgs resolver) (args fc));
     resolve := Some (WithOriginal (Some (default originalResolver (resolve fc)))
                        originalResolver);
     extensions := extensions fc |}.

Definition wire (schemaComposer : SchemaComposer) (fc : FieldConfig) : FieldConfig :=
  match fieldResolverOf schemaComposer fc with
  | Return (Some resolver) => wired fc resolver
  | _ => fc
  end.

End Builder.

(** What is said of an overlay entry on an existing field, word for word:
    the field's declared type stays, and the two argument maps are merged
    with the overlay's arguments winning under a shared name. *)
Definition keepsTypeAndMergesArgs (field field' : FieldConfig) (o : FieldOptions) : Prop :=
  type field' = type field ∧
  ∀ a, spread (args field') !! a =
         match spread (optArgs o) !! a with
         | Some v => Some v
         | None => spread (args field) !! a
         end.

(** Two composers that differ in their fields at most, and two registries
    that hold such composers under the same names. *)
Definition sameButFields (a b : TypeComposer) : Prop :=
  typeName a = typeName b ∧ kind a = kind b ∧ interfaces a = interfaces b ∧
  resolvers a = resolvers b ∧ typeExtensions a = typeExtensions b.

Definition sameTypes (sc sc' : SchemaComposer) : Prop :=
  ∀ n, match get sc n, get sc' n with
       | Some a, Some b => sameButFields a b
       | None, None => True
       | _, _ => False
       end.

(** A name that the registry holds as an Object type. *)
Definition isOTC (schemaComposer : SchemaComposer) (n : string) : bool :=
  match get schemaComposer n with
  | Some tc => isObject tc
  | None => false
  end.

(** The name, type and extensions of each field, in key order. *)
Definition fieldShapes (tc : TypeComposer) : list (string * gqlType * extensionsMap) :=
  List.map (fun kv => (fst kv, type (snd kv), extensions (snd kv))) (fields tc).

(** A field config with more extensions, the new ones winning. *)
Definition withExtensions (e : extensionsMap) (fc : FieldConfig) : FieldConfig :=
  {| type := type fc; args := args fc; resolve := resolve fc;
     extensions := e ∪ extensions fc |}.

(** Two registries with the same names in the same order, whose types
    differ at most in the arguments and resolve functions of their fields. *)
Definition sameShapes (sc sc' : SchemaComposer) : Prop :=
  List.map fst sc' = List.map fst sc ∧
  ∀ n, match get sc n, get sc' n with
       | Some a, Some b => sameButFields a b ∧ fieldShapes b = fieldShapes a
       | None, None => True
       | _, _ => False
       end.

(** The types that [processObjectFields] returns as they are. *)
Definition notWired (tc : TypeComposer) : Prop :=
  isObject tc = false ∨ typeName tc = "Query" ∨
  truthyExt (getExtension "isUserDefined" tc) = false.

(** A name under which the registry holds a type of that name flagged
    [isUserDefined]. *)
Definition userDefinedAs (sc : SchemaComposer) (n : string) : Prop :=
  ∃ tc, get sc n = Some tc ∧ typeName tc = n ∧
        truthyExt (getExtension "isUserDefined" tc) = true.

(** A descriptor that [createType] accepts: an Object or a Union with a
    name. *)
Definition wellNamed (type : createdType) : Prop :=
  (createdAs type = Object ∨ createdAs type = Union) ∧
  truthy (name (options type)) = true.

(** *** Registering types *)

(** What [addTypes] is given: schema text, an array of descriptors, or
    one descriptor. *)
Inductive typeOrSDL :=
| SDL (text : string)
| TypeArray (types : list createdType)
| TypeSingle (type : createdType).

Section AddTypes.

Variable createTypeName : string → string.

(** The branch of [addTypes] for schema text ([addTypeDefs] of the library,
    then [addCreatedType] with the directives of each parsed type) is taken
    as given. *)
Variable addTypesFromSDL : string → SchemaComposer → completion SchemaComposer.

(** [createType] and then [addCreatedType], as both descriptor branches of
    [addTypes] do. *)
Definition addType (schemaComposer : SchemaComposer) (type : createdType)
  : completion SchemaComposer :=
  match createType createTypeName schemaComposer type None with
  | Throw e => Throw e
  | Return tempTypeComposer => addCreatedType schemaComposer tempTypeComposer
  end.

Fixpoint addTypeArray (schemaComposer : SchemaComposer) (types : list createdType)
  : completion SchemaComposer :=
  match types with
  | [] => Return schemaComposer
  | type :: rest =>
      match addType schemaComposer type with
      | Throw e => Throw e
      | Return schemaComposer' => addTypeArray schemaComposer' rest
      end
  end.

Definition addTypes (schemaComposer : SchemaComposer) (typeOrSDL : typeOrSDL)
  : completion SchemaComposer :=
  match typeOrSDL with
  | SDL text => addTypesFromSDL text schemaComposer
  | TypeArray types => addTypeArray schemaComposer types
  | TypeSingle type => addType schemaComposer type
  end.

End AddTypes.

End Schema.

(** ** Sample stores *)

Module StoreExamples.
Import NodeStore.

(** A normaliser that hands the options on as they are, a hook chain that
    accepts every candidate and one that vetoes every candidate. *)
Definition passThrough (options : Node) (_ : ContentType) (_ : bool) : Node := options.
Definition acceptAll (options : Node) (_ : ContentType) : option Node := Some options.
Definition vetoAll (_ : Node) (_ : ContentType) : option Node := None.

Definition nodeA : Node :=
  {| id := Some "a"; uid := Some "u1"; loki := Some 1; fields := [("title", VStr "A")] |}.
Definition nodeB : Node :=
  {| id := Some "b"; uid := Some "u2"; loki := Some 2; fields := [("title", VStr "B")] |}.

(** A content type "Post" holding two nodes. *)
Definition posts : ContentType :=
  {| typeName := "Post";
     _collection := {| data := [nodeA; nodeB]; maxId := 2 |};
     _events := [];
     warnings := [] |}.

(** Options for a new node, for an update of "a", for an update that names
    an unknown id next to the [$uid] of "a", and for an update of "a" (found
    by its [$uid]) that asks for the id of "b". *)
Definition optionsC : Node :=
  {| id := Some "c"; uid := Some "u3"; loki := None; fields := [("title", VStr "C")] |}.
Definition optionsA' : Node :=
  {| id := Some "a"; uid := None; loki := None; fields := [("title", VStr "A2")] |}.
Definition optionsZ : Node :=
  {| id := Some "zzz"; uid := Some "u1"; loki := None; fields := [("title", VStr "Z")] |}.
Definition optionsAB : Node :=
  {| id := Some "b"; uid := Some "u1"; loki := None; fields := [] |}.
Definition optionsDup : Node :=
  {| id := Some "a"; uid := Some "u9"; loki := None; fields := [] |}.

(** The node that the update of "a" leaves in the store. *)
Definition nodeA2 : Node :=
  {| id := Some "a"; uid := None; loki := Some 1; fields := [("title", VStr "A2")] |}.

(** The node that inserting [optionsC] leaves in the store. *)
Definition nodeC : Node :=
  {| id := Some "c"; uid := Some "u3"; loki := Some 3; fields := [("title", VStr "C")] |}.

(** A hook chain that vetoes a candidate without properties and accepts
    any other. *)
Definition vetoBare (options : Node) (_ : ContentType) : option Node :=
  match fields options with
  | [] => None
  | _ => Some options
  end.

(** Options for an update of "b", and options without properties for an
    update of "a", neither with a [$uid]. *)
Definition optionsB' : Node :=
  {| id := Some "b"; uid := None; loki := None; fields := [("title", VStr "B2")] |}.
Definition optionsBare : Node :=
  {| id := Some "a"; uid := None; loki := None; fields := [] |}.

Definition nodeB2 : Node :=
  {| id := Some "b"; uid := None; loki := Some 2; fields := [("title", VStr "B2")] |}.

(** The sample store after an update of "a" and an update of "b": the two
    nodes are as the updates made them, without a [$uid]. *)
Definition rewritten : ContentType :=
  snd (updateNode passThrough vetoBare optionsB'
         (snd (updateNode passThrough vetoBare optionsA' posts))).

End StoreExamples.

(** ** A sample registry *)

Module SchemaExamples.
Import Schema.

Definition findOne : Resolver :=
  {| resolverArgs := Some {[ "id" := Named "ID" ]};
     resolverResolve := Some (Authored "Author.findOne") |}.

Definition findMany : Resolver :=
  {| resolverArgs := Some {[ "limit" := Named "Int"; "skip" := Named "Int" ]};
     resolverResolve := Some (Authored "Author.findMany") |}.

(** A Node type with its two resolvers. *)
Definition Author : TypeComposer :=
  {| typeName := "Author"; kind := ObjectTypeComposer;
     fields := [("id", {| type := NonNull (Named "ID"); args := None; resolve := None;
                          extensions := ∅ |})];
     interfaces := ["Node"];
     resolvers := {[ "findOne" := findOne; "findMany" := findMany ]};
     typeExtensions := ∅ |}.

Definition title : FieldConfig :=
  {| type := Named "String"; args := Some {[ "format" := Named "String" ]};
     resolve := Some (Authored "Post.title"); extensions := ∅ |}.

Definition author : FieldConfig :=
  {| type := Named "Author"; args := None; resolve := None; extensions := ∅ |}.

Definition contributors : FieldConfig :=
  {| type := ListOf (Named "Author"); args := Some {[ "limit" := Named "String" ]};
     resolve := None; extensions := ∅ |}.

(** A user-defined type with a plain field, a reference and a list of
    references. *)
Definition Post : TypeComposer :=
  {| typeName := "Post"; kind := ObjectTypeComposer;
     fields := [("title", title); ("author", author); ("contributors", contributors)];
     interfaces := [];
     resolvers := ∅;
     typeExtensions := {[ "isUserDefined" := ExtBool true ]} |}.

Definition Query : TypeComposer :=
  {| typeName := "Query"; kind := ObjectTypeComposer; fields := [];
     interfaces := []; resolvers := ∅; typeExtensions := ∅ |}.

Definition Media : TypeComposer :=
  {| typeName := "Media"; kind := UnionTypeComposer; fields := [];
     interfaces := []; resolvers := ∅; typeExtensions := ∅ |}.

Definition registry : SchemaComposer :=
  [("Query", Query); ("Author", Author); ("Post", Post); ("Media", Media)].

(** An overlay entry for the existing field [Post.title] that declares a
    type and arguments of its own, one for a new field with a type, and one
    for a new field without. *)
Definition titleOverlay : FieldOptions :=
  {| optType := Some (Named "Int");
     optArgs := Some {[ "upper" := Named "Boolean" ]};
     optResolve := Some (Authored "custom") |}.

Definition excerptOverlay : FieldOptions :=
  {| optType := Some (Named "String"); optArgs := None;
     optResolve := Some (Authored "excerpt") |}.

Definition untypedOverlay : FieldOptions :=
  {| optType := None; optArgs := None; optResolve := Some (Authored "excerpt") |}.

(** A descriptor with a name, and one without. *)
Definition namedDescriptor : createdType :=
  {| createdAs := Object;
     options := {| name := Some "Post";
                   fieldDefinitions := [("title", FieldType (Named "String"))];
                   interfaceNames := []; extensionOptions := None |} |}.

Definition unnamedDescriptor : createdType :=
  {| createdAs := Object;
     options := {| name := None;
                   fieldDefinitions := [("title", FieldType (Named "String"))];
                   interfaceNames := []; extensionOptions := None |} |}.

Definition pascal (s : string) : string := "T_" +:+ s.

(** The registry after the pass, and after an overlay on [Post.title]. *)
Definition wiredRegistry : SchemaComposer :=
  match processAllObjectFields ∅ registry (List.map fst registry) with
  | Return sc => sc
  | Throw _ => registry
  end.

Definition overlaidRegistry : SchemaComposer :=
  match addResolvers registry [("Post", [("title", titleOverlay)])] with
  | Return sc => sc
  | Throw _ => registry
  end.

(** A Node type that has no resolvers, and a user-defined type that refers
    to it. *)
Definition Tag : TypeComposer :=
  {| typeName := "Tag"; kind := ObjectTypeComposer; fields := [];
     interfaces := ["Node"]; resolvers := ∅; typeExtensions := ∅ |}.

Definition Note : TypeComposer :=
  {| typeName := "Note"; kind := ObjectTypeComposer;
     fields := [("tag", {| type := Named "Tag"; args := None; resolve := None;
                           extensions := ∅ |})];
     interfaces := []; resolvers := ∅;
     typeExtensions := {[ "isUserDefined" := ExtBool true ]} |}.

Definition brokenRegistry : SchemaComposer :=
  [("Query", Query); ("Tag", Tag); ("Note", Note)].

(** A table with a resolver for [String] fields. *)
Definition upperCase : Resolver :=
  {| resolverArgs := Some {[ "upper" := Named "Boolean" ]};
     resolverResolve := Some (Authored "String.upperCase") |}.

Definition scalars : gmap string Resolver := {[ "String" := upperCase ]}.

(** A descriptor with a reference to [Author] and a field with an
    [options] block, and a Union descriptor. *)
Definition articleDescriptor : createdType :=
  {| createdAs := Object;
     options :=
       {| name := Some "Article";
          fieldDefinitions :=
            [("author", FieldType (Named "Author"));
             ("date",
              FieldObject
                {| type := Named "Date"; args := None; resolve := None; extensions := ∅ |}
                (Some {[ "format" := ExtString "YYYY" ]}))];
          interfaceNames := [];
          extensionOptions := Some {[ "infer" := ExtBool true ]} |} |}.

(** The type that [createType] makes of it. *)
Definition articleType : TypeComposer :=
  match createType pascal registry articleDescriptor None with
  | Return (Some tc) => tc
  | _ => Post
  end.

(** The registry with the scalar [Date] that the descriptor refers to. *)
Definition Date : TypeComposer :=
  {| typeName := "Date"; kind := ScalarTypeComposer; fields := [];
     interfaces := []; resolvers := ∅; typeExtensions := ∅ |}.

Definition datedRegistry : SchemaComposer := registry ++ [("Date", Date)].

Definition unionDescriptor : createdType :=
  {| createdAs := Union;
     options := {| name := Some "Content"; fieldDefinitions := [];
                   interfaceNames := []; extensionOptions := None |} |}.

(** A parser of schema text that registers nothing. *)
Definition noTypeDefs (_ : string) (sc : SchemaComposer) : completion SchemaComposer :=
  Return sc.

End SchemaExamples.

(** ** Sample declarations *)

Module DeclarationExamples.
Import ContentTypeOptions.

(** A field-name maker that drops underscores when asked for camel case. *)
Fixpoint dropUnderscores (s : string) : string :=
  match s with
  | EmptyString => EmptyString
  | String c rest =>
      if bool_decide (c = "_"%char) then dropUnderscores rest
      else String c (dropUnderscores rest)
  end.

Definition makeFieldName (name : string) (camelCased : bool) : string :=
  if camelCased then dropUnderscores name else name.

Definition declarations : Declarations string :=
  {| refs := ∅; fields := ∅; _camelCasedFieldNames := true |}.

End DeclarationExamples.
(** ** Properties of the node store *)

Module NodeStoreFacts.
Import NodeStore.

Lemma omap_id_cons (r : Node) (l : list Node) :
  omap id (r :: l) = match id r with Some s => s :: omap id l | None => omap id l end.
Proof. reflexivity. Qed.

Lemma NoDup_omap_tail (r : Node) (l : list Node) :
  NoDup (omap id (r :: l)) → NoDup (omap id l).
Proof.
  rewrite omap_id_cons. destruct (id r); [|done].
  rewrite NoDup_cons. tauto.
Qed.

Lemma NoDup_omap_head (r : Node) (l : list Node) (s : string) (n : Node) :
  NoDup (omap id (r :: l)) → id r = Some s → n ∈ l → id n = Some s → False.
Proof.
  rewrite omap_id_cons. intros Hnd Hr Hn Hid. rewrite Hr in Hnd.
  apply NoDup_cons in Hnd as [Hnotin _]. apply Hnotin.
  apply list_elem_of_omap. eauto.
Qed.

Lemma hasId_true (s : string) (n : Node) : hasId s n = true ↔ id n = Some s.
Proof. unfold hasId. rewrite bool_decide_eq_true. done. Qed.

Lemma hasId_false (s : string) (n : Node) : hasId s n = false ↔ id n ≠ Some s.
Proof. unfold hasId. rewrite bool_decide_eq_false. done. Qed.

Lemma existsb_hasId_false (s : string) (l : list Node) :
  List.existsb (hasId s) l = false ↔ ∀ n, n ∈ l → id n ≠ Some s.
Proof.
  induction l as [|r l IH]; simpl.
  - split; [intros _ n Hn; inversion Hn | done].
  - rewrite orb_false_iff, IH, hasId_false. split.
    + intros [Hr Hl] n Hn. apply elem_of_cons in Hn as [->|Hn]; auto.
    + intros H. split; [apply H; left | intros n Hn; apply H; by right].
Qed.

Lemma find_hasId_none (s : string) (l : list Node) :
  List.existsb (hasId s) l = false → List.find (hasId s) l = None.
Proof.
  induction l as [|r l IH]; simpl; [done|].
  destruct (hasId s r); simpl; [done | exact IH].
Qed.

Lemma find_app_last (f : Node → bool) (l : list Node) (x : Node) :
  List.find f l = None → f x = true → List.find f (l ++ [x]) = Some x.
Proof.
  induction l as [|r l IH]; simpl; intros Hnone Hx.
  - by rewrite Hx.
  - destruct (f r); [done | by apply IH].
Qed.

(** With unique ids, the first row found under an id is the only one. *)
Lemma find_unique (l : list Node) (o : Node) (s : string) :
  NoDup (omap id l) → o ∈ l → id o = Some s → List.find (hasId s) l = Some o.
Proof.
  induction l as [|r l IH]; intros Hnd Ho Hid; [inversion Ho|].
  simpl. destruct (hasId s r) eqn:Hr.
  - apply hasId_true in Hr. apply elem_of_cons in Ho as [->|Ho]; [done|].
    exfalso. eapply NoDup_omap_head; eauto.
  - apply hasId_false in Hr. apply elem_of_cons in Ho as [->|Ho]; [done|].
    apply IH; eauto using NoDup_omap_tail.
Qed.

Lemma replaceRow_length (k : nat) (doc : Node) (l : list Node) :
  length (replaceRow k doc l) = length l.
Proof.
  induction l as [|r l IH]; simpl; [done|].
  destruct (hasLoki k r); simpl; congruence.
Qed.

(** The row that [update] writes is the one found under its id afterwards. *)
Lemma find_replaceRow (l : list Node) (k : nat) (doc old : Node) (s : string) :
  NoDup (omap id l) →
  List.find (hasLoki k) l = Some old →
  id doc = Some s →
  id old = Some s ∨ List.existsb (hasId s) l = false →
  List.find (hasId s) (replaceRow k doc l) = Some doc.
Proof.
  induction l as [|r l IH]; simpl; intros Hnd Hfind Hdoc Hfree; [done|].
  destruct (hasLoki k r) eqn:Hk.
  - simpl. apply hasId_true in Hdoc. by rewrite Hdoc.
  - simpl. destruct (hasId s r) eqn:Hr.
    + exfalso. destruct Hfree as [Hold|Hfree]; [|done].
      apply hasId_true in Hr. apply List.find_some in Hfind as [Hin _].
      apply list_elem_of_In in Hin. eapply NoDup_omap_head; eauto.
    + apply IH; eauto using NoDup_omap_tail.
Qed.

Lemma filter_keeps_all (f : Node → bool) (l : list Node) :
  (∀ n, n ∈ l → f n = true) → List.filter f l = l.
Proof.
  induction l as [|r l IH]; simpl; intros H; [done|].
  rewrite (H r) by left. f_equal. apply IH. intros n Hn. apply H. by right.
Qed.

(** Removing by [$uid] takes out exactly one row when that [$uid] belongs
    to one node only. *)
Lemma remove_one (l : list Node) (o : Node) (s : string) :
  NoDup (omap id l) → o ∈ l → id o = Some s →
  (∀ n, n ∈ l → uid n = uid o → n = o) →
  S (length (List.filter (fun n => negb (matches (ByUid (uid o)) n)) l)) = length l.
Proof.
  induction l as [|r l IH]; intros Hnd Ho Hid Huid; [inversion Ho|].
  simpl. destruct (bool_decide (uid r = uid o)) eqn:Hr; simpl.
  - apply bool_decide_eq_true in Hr.
    assert (r = o) as -> by (apply Huid; [left | done]).
    rewrite filter_keeps_all; [done|].
    intros n Hn. apply negb_true_iff, bool_decide_eq_false. intros Hu.
    assert (n = o) as -> by (apply Huid; [by right | done]).
    eapply NoDup_omap_head; eauto.
  - apply bool_decide_eq_false in Hr. f_equal.
    apply elem_of_cons in Ho as [->|Ho]; [done|].
    apply IH; eauto using NoDup_omap_tail.
    intros n Hn. apply Huid. by right.
Qed.


(** A filter that drops a row of the list leaves fewer rows. *)
Lemma filter_drops_one (f : Node → bool) (l : list Node) (x : Node) :
  x ∈ l → f x = false → (length (List.filter f l) < length l)%nat.
Proof.
  induction l as [|r l IH]; intros Hx Hf; [inversion Hx|].
  simpl. apply elem_of_cons in Hx as [<-|Hx].
  - rewrite Hf. pose proof (List.filter_length_le f l). lia.
  - specialize (IH Hx Hf). destruct (f r); simpl; lia.
Qed.

(** Looking a node of the collection up by its [id], passed on as an
    argument, finds a node: one with that id when it is a string. *)
Lemma findOne_idArg (c : Collection) (o : Node) :
  o ∈ data c →
  ∃ r, findOne (toQuery (idArg (id o))) c = Some r ∧ r ∈ data c ∧
       ∀ s, id o = Some s → id r = Some s.
Proof.
  intros Ho. unfold findOne.
  destruct (List.find (matches (toQuery (idArg (id o)))) (data c)) as [r|] eqn:Hfind.
  - apply List.find_some in Hfind as [Hin Hm]. apply list_elem_of_In in Hin.
    exists r. split; [done|]. split; [done|].
    intros s Hs. rewrite Hs in Hm. simpl in Hm. by apply bool_decide_eq_true in Hm.
  - exfalso. apply list_elem_of_In in Ho.
    pose proof (List.find_none _ _ Hfind o Ho) as Hm.
    destruct (id o) as [s|] eqn:Hs; simpl in Hm; [|done].
    by apply bool_decide_eq_false in Hm.
Qed.

(** *** Unique ids are kept by the collection *)

Lemma omap_id_app (l k : list Node) : omap id (l ++ k) = omap id l ++ omap id k.
Proof. apply omap_app. Qed.

Lemma elem_of_omap_id (s : string) (l : list Node) :
  s ∈ omap id l ↔ ∃ n, n ∈ l ∧ id n = Some s.
Proof. apply list_elem_of_omap. Qed.

Lemma uniqueIds_insert (doc node : Node) (c c' : Collection) :
  uniqueIds c → insert doc c = inr (node, c') → uniqueIds c'.
Proof.
  unfold uniqueIds, insert. intros Hnd.
  destruct (loki doc); [done|].
  destruct (taken (id doc) c) eqn:Hfree; [done|].
  intros [= <- <-]. simpl. rewrite omap_id_app. simpl.
  destruct (id doc) as [s|] eqn:Hid; simpl.
  - apply NoDup_app. split; [done|]. split; [|apply NoDup_singleton].
    intros x Hx Hx'. apply list_elem_of_singleton in Hx' as ->.
    apply elem_of_omap_id in Hx as (n & Hn & Hn_id).
    simpl in Hfree.
    destruct (List.existsb (hasId s) (data c)) eqn:Hex; [done|].
    by eapply (proj1 (existsb_hasId_false s _) Hex).
  - by rewrite app_nil_r.
Qed.

Lemma elem_of_replaceRow (k : nat) (doc n : Node) (l : list Node) :
  n ∈ replaceRow k doc l → n = doc ∨ n ∈ l.
Proof.
  induction l as [|r l IH]; simpl; [by right|].
  destruct (hasLoki k r).
  - intros H. apply elem_of_cons in H as [->|H]; [by left | right; by right].
  - intros H. apply elem_of_cons in H as [->|H]; [right; left|].
    destruct (IH H) as [->|Hin]; [by left | right; by right].
Qed.

Lemma uniqueIds_replaceRow (l : list Node) (k : nat) (doc old : Node) :
  NoDup (omap id l) →
  List.find (hasLoki k) l = Some old →
  id old = id doc ∨ (∀ s, id doc = Some s → List.existsb (hasId s) l = false) →
  NoDup (omap id (replaceRow k doc l)).
Proof.
  induction l as [|r l IH]; intros Hnd Hfind Hfree; [done|].
  pose proof (NoDup_omap_tail _ _ Hnd) as Htail.
  simpl in Hfind |- *. destruct (hasLoki k r) eqn:Hk.
  - injection Hfind as ->.
    destruct Hfree as [Hsame|Hfree].
    { rewrite omap_id_cons in *. by rewrite <- Hsame. }
    rewrite omap_id_cons. destruct (id doc) as [s|]; [|done].
    apply NoDup_cons. split; [|done].
    intros Hs. apply elem_of_omap_id in Hs as (n & Hn & Hn_id).
    specialize (Hfree s eq_refl). simpl in Hfree.
    apply orb_false_iff in Hfree as [_ Hfree].
    by eapply (proj1 (existsb_hasId_false s _) Hfree).
  - assert (NoDup (omap id (replaceRow k doc l))) as Hrec.
    { apply IH; [done | done |].
      destruct Hfree as [Hsame|Hfree]; [by left | right].
      intros s Hs. specialize (Hfree s Hs). simpl in Hfree.
      by apply orb_false_iff in Hfree as [_ ?]. }
    rewrite omap_id_cons. destruct (id r) as [x|] eqn:Hr; [|done].
    apply NoDup_cons. split; [|done].
    intros Hx. apply elem_of_omap_id in Hx as (n & Hn & Hn_id).
    apply elem_of_replaceRow in Hn as [->|Hn].
    + destruct Hfree as [Hsame|Hfree].
      * apply List.find_some in Hfind as [Hin _]. apply list_elem_of_In in Hin.
        apply (NoDup_omap_head r l x old Hnd Hr Hin). by rewrite Hsame.
      * specialize (Hfree x Hn_id). simpl in Hfree.
        apply orb_false_iff in Hfree as [Hrx _].
        apply hasId_false in Hrx. done.
    + apply (NoDup_omap_head r l x n Hnd Hr Hn Hn_id).
Qed.

Lemma uniqueIds_update (doc : Node) (c c' : Collection) :
  uniqueIds c → update doc c = inr c' → uniqueIds c'.
Proof.
  unfold uniqueIds, update. intros Hnd.
  destruct (loki doc) as [k|]; [|done].
  destruct (List.find (hasLoki k) (data c)) as [old|] eqn:Hfind; [|done].
  case_bool_decide as Hid.
  - intros [= <-]. simpl. eapply uniqueIds_replaceRow; eauto.
  - destruct (taken (id doc) c) eqn:Hfree; [done|].
    intros [= <-]. simpl. eapply uniqueIds_replaceRow; eauto.
    right. intros s Hs. rewrite Hs in Hfree. simpl in Hfree.
    by destruct (List.existsb (hasId s) (data c)).
Qed.

Lemma NoDup_omap_filter (f : Node → bool) (l : list Node) :
  NoDup (omap id l) → NoDup (omap id (List.filter f l)).
Proof.
  induction l as [|r l IH]; intros Hnd; [done|].
  pose proof (NoDup_omap_tail _ _ Hnd) as Htail.
  simpl. destruct (f r); [|by apply IH].
  rewrite omap_id_cons. destruct (id r) as [x|] eqn:Hr; [|by apply IH].
  apply NoDup_cons. split; [|by apply IH].
  intros Hx. apply elem_of_omap_id in Hx as (n & Hn & Hn_id).
  apply list_elem_of_In, List.filter_In in Hn as [Hn _]. apply list_elem_of_In in Hn.
  apply (NoDup_omap_head r l x n Hnd Hr Hn Hn_id).
Qed.

Lemma uniqueIds_findAndRemove (q : query) (c : Collection) :
  uniqueIds c → uniqueIds (findAndRemove q c).
Proof. unfold uniqueIds. simpl. apply NoDup_omap_filter. Qed.

Section Claims.

Variable normalizeNodeOptions : Node → ContentType → bool → Node.
Variable hooks_addNode : Node → ContentType → option Node.

Abbreviation addNode := (addNode normalizeNodeOptions hooks_addNode).
Abbreviation updateNode := (updateNode normalizeNodeOptions hooks_addNode).

Lemma insert_inr (doc node : Node) (c c' : Collection) :
  insert doc c = inr (node, c') →
  loki doc = None ∧ taken (id doc) c = None ∧
  node = set_loki (Some (S (maxId c))) doc ∧
  data c' = data c ++ [node].
Proof.
  unfold insert. destruct (loki doc); [done|].
  destruct (taken (id doc) c); [done|].
  intros [= <- <-]. done.
Qed.

Lemma update_inr (doc : Node) (c c' : Collection) :
  update doc c = inr c' →
  ∃ k old, loki doc = Some k ∧ List.find (hasLoki k) (data c) = Some old ∧
    (id old = id doc ∨ taken (id doc) c = None) ∧
    data c' = replaceRow k doc (data c).
Proof.
  unfold update. destruct (loki doc) as [k|] eqn:Hk; [|done].
  destruct (List.find (hasLoki k) (data c)) as [old|] eqn:Hfind; [|done].
  case_bool_decide as Hid.
  - intros [= <-]. exists k, old. repeat split; auto.
  - destruct (taken (id doc) c) eqn:Ht; [done|].
    intros [= <-]. exists k, old. repeat split; auto.
Qed.

(** X2. Ids stay unique under [addNode], [removeNode] and [updateNode],
    however the call ends. *)
Lemma uniqueIds_kept (options : Node) (a : idOrQuery) (this : ContentType) :
  uniqueIds (_collection this) →
  uniqueIds (_collection (snd (addNode options this))) ∧
  uniqueIds (_collection (snd (removeNode a this))) ∧
  uniqueIds (_collection (snd (updateNode options this))).
Proof.
  intros Huniq.
  assert (∀ b, uniqueIds (_collection (snd (removeNode b this)))) as Hremove.
  { intros b. unfold removeNode. destruct (findOne (toQuery b) (_collection this)); [|done].
    simpl. by apply uniqueIds_findAndRemove. }
  split; [|split; [apply Hremove|]].
  - unfold NodeStore.addNode.
    destruct (hooks_addNode _ _) as [cand|]; [|done].
    destruct (insert cand (_collection this)) as [err|[n c]] eqn:Hins; [done|].
    simpl. by eapply uniqueIds_insert.
  - unfold NodeStore.updateNode.
    destruct (getNode _ this) as [oldNode|]; [|done].
    destruct (hooks_addNode _ _) as [cand|]; [|apply Hremove].
    destruct (update _ (_collection this)) as [err|c] eqn:Hupd; [done|].
    simpl. by eapply uniqueIds_update.
Qed.

(** C3. A successful [updateNode] (one that returns the node) found a prior
    node and ran the hook chain on the normalised options; the node it
    returns carries the prior node's [$loki] row number, has the id of the
    options when that is truthy and the prior node's id otherwise, and has
    the fields the hook chain produced; the number of nodes is unchanged;
    the node is what [getNode] returns under its id from then on; and the
    one event emitted is [update] with the new and the prior node. *)
Theorem updateNode_success (options : Node) (this this' : ContentType) (node : Node) :
  uniqueIds (_collection this) →
  updateNode options this = (Return (Some node), this') →
  ∃ oldNode cand,
    getNode (IdQuery (lookupQuery (normalizeNodeOptions options this true))) this
      = Some oldNode ∧
    hooks_addNode (normalizeNodeOptions options this true) this = Some cand ∧
    loki node = loki oldNode ∧
    id node = js_or (id (normalizeNodeOptions options this true)) (id oldNode) ∧
    fields node = fields cand ∧
    count this' = count this ∧
    (∀ s, id node = Some s → getNode (IdString s) this' = Some node) ∧
    _events this' = _events this ++ [EvUpdate node oldNode].
Proof.
  intros Huniq. unfold NodeStore.updateNode.
  set (opts := normalizeNodeOptions options this true).
  destruct (getNode (IdQuery (lookupQuery opts)) this) as [oldNode|] eqn:Hold; [|done].
  destruct (hooks_addNode opts this) as [cand|] eqn:Hhook;
    [|unfold removeNode; destruct (findOne _ _); done].
  set (n := set_loki (loki oldNode) (set_id (js_or (id opts) (id oldNode)) cand)).
  destruct (update n (_collection this)) as [err|c] eqn:Hupd; [done|].
  intros [= <- <-]. exists oldNode, cand.
  apply update_inr in Hupd as (k & old & Hk & Hfind & Hfree & Hdata).
  repeat split; try done.
  - unfold count. simpl. rewrite Hdata. apply replaceRow_length.
  - intros s Hs. unfold getNode, findOne. simpl. rewrite Hdata.
    change (matches (ById (Some s))) with (hasId s).
    eapply find_replaceRow; eauto.
    destruct Hfree as [Hsame|Hfree]; [left; congruence|right].
    rewrite Hs in Hfree. simpl in Hfree.
    by destruct (List.existsb (hasId s) (data (_collection this))).
Qed.

(** C4, as amended. When the collection holds no node under the key that
    [updateNode] looks the prior node up with (the [$uid] of the normalised
    options when that is truthy, their [id] otherwise), the call throws and
    the store is left as it was: same nodes, no event, no warning.
    [removeNode] with a string id that no node has throws as well and
    leaves the store as it was. *)
Theorem update_remove_absent (options : Node) (this : ContentType) (s : string) :
  (getNode (IdQuery (lookupQuery (normalizeNodeOptions options this true))) this = None →
   ∃ e, updateNode options this = (Throw e, this)) ∧
  ((∀ n, n ∈ data (_collection this) → id n ≠ Some s) →
   ∃ e, removeNode (IdString s) this = (Throw e, this)).
Proof.
  split.
  - intros Hnone. unfold NodeStore.updateNode. rewrite Hnone. eauto.
  - intros Habsent. unfold removeNode, findOne. simpl.
    change (matches (ById (Some s))) with (hasId s).
    rewrite find_hasId_none; [eauto|]. by apply existsb_hasId_false.
Qed.


(** C6. [addNode] returns null and leaves the collection and the events as
    they were when the hook chain returns nothing (no warning either) and
    when the collection rejects the insert (one warning, tagged with the
    type name); [updateNode] does the same when the collection rejects the
    update of the node the hook chain produced. *)
Theorem add_update_abort (options : Node) (this : ContentType) :
  (hooks_addNode (normalizeNodeOptions options this true) this = None →
   addNode options this = (Return None, this)) ∧
  (∀ node err,
     hooks_addNode (normalizeNodeOptions options this true) this = Some node →
     insert node (_collection this) = inl err →
     ∃ this',
       addNode options this = (Return None, this') ∧
       _collection this' = _collection this ∧
       _events this' = _events this ∧
       warnings this' =
         warnings this ++ [("Failed to add node: " +:+ message err, typeName this)]) ∧
  (∀ oldNode node err,
     getNode (IdQuery (lookupQuery (normalizeNodeOptions options this true))) this
       = Some oldNode →
     hooks_addNode (normalizeNodeOptions options this true) this = Some node →
     update (set_loki (loki oldNode)
               (set_id (js_or (id (normalizeNodeOptions options this true)) (id oldNode))
                  node))
            (_collection this) = inl err →
     ∃ this',
       updateNode options this = (Return None, this') ∧
       _collection this' = _collection this ∧
       _events this' = _events this ∧
       warnings this' =
         warnings this ++ [("Failed to update node: " +:+ message err, typeName this)]).
Proof.
  split; [|split].
  - intros Hhook. unfold NodeStore.addNode. by rewrite Hhook.
  - intros node err Hhook Hins. unfold NodeStore.addNode. rewrite Hhook, Hins.
    eexists. split; [reflexivity|]. done.
  - intros oldNode node err Hold Hhook Hupd. unfold NodeStore.updateNode.
    rewrite Hold, Hhook, Hupd. eexists. split; [reflexivity|]. done.
Qed.

(** C7. When [addNode] inserts a node (it returns the node, which the
    collection took because no other node had its id), [getNode] with the
    node's id returns that very node; [removeNode] with the id then returns
    null, and [getNode] with the id returns null afterwards. *)
Theorem add_get_remove (options : Node) (this this' : ContentType) (node : Node) (s : string) :
  addNode options this = (Return (Some node), this') →
  id node = Some s →
  getNode (IdString s) this' = Some node ∧
  ∃ this'',
    removeNode (IdString s) this' = (Return None, this'') ∧
    getNode (IdString s) this'' = None.
Proof.
  unfold NodeStore.addNode.
  destruct (hooks_addNode _ _) as [cand|]; [|done].
  destruct (insert cand (_collection this)) as [err|[n c]] eqn:Hins; [done|].
  intros [= -> <-] Hid.
  apply insert_inr in Hins as (_ & Hfree & Hnode & Hdata).
  assert (id cand = Some s) as Hcand by (by rewrite Hnode in Hid).
  rewrite Hcand in Hfree. simpl in Hfree.
  destruct (List.existsb (hasId s) (data (_collection this))) eqn:Hex; [done|].
  assert (getNode (IdString s) (emit (EvAdd node) (set_collection c this)) = Some node) as Hget.
  { unfold getNode, findOne. simpl. rewrite Hdata.
    change (matches (ById (Some s))) with (hasId s).
    apply find_app_last; [by apply find_hasId_none | by apply hasId_true]. }
  split; [exact Hget|].
  unfold removeNode. unfold getNode in Hget. rewrite Hget.
  eexists. split; [reflexivity|].
  unfold getNode, findOne. simpl. rewrite Hdata.
  change (matches (ById (Some s))) with (hasId s).
  apply find_hasId_none, existsb_hasId_false.
  intros n Hn Hn_id. apply list_elem_of_In, List.filter_In in Hn as [Hn Hneg].
  apply negb_true_iff, bool_decide_eq_false in Hneg.
  apply in_app_or in Hn as [Hn|[<-|[]]]; [|done].
  apply list_elem_of_In in Hn.
  by eapply (proj1 (existsb_hasId_false s _) Hex).
Qed.

End Claims.

(** *** The claims at the sample store *)

Import StoreExamples.

(** Case analysis on a node taken from given rows. *)
Ltac in_rows H :=
  simpl in H;
  repeat (apply elem_of_cons in H as [->|H]);
  try (apply elem_of_nil in H; destruct H).

Lemma posts_uniqueIds : uniqueIds (_collection posts).
Proof.
  unfold uniqueIds. simpl. apply NoDup_cons. split.
  - intros H. apply list_elem_of_singleton in H. discriminate H.
  - apply NoDup_singleton.
Qed.

Lemma updateNode_success_witness :
  updateNode passThrough acceptAll optionsA' posts
    = (Return (Some nodeA2), snd (updateNode passThrough acceptAll optionsA' posts)) ∧
  ∃ oldNode cand,
    getNode (IdQuery (lookupQuery (passThrough optionsA' posts true))) posts = Some oldNode ∧
    acceptAll (passThrough optionsA' posts true) posts = Some cand ∧
    loki nodeA2 = loki oldNode ∧
    id nodeA2 = js_or (id (passThrough optionsA' posts true)) (id oldNode) ∧
    fields nodeA2 = fields cand ∧
    count (snd (updateNode passThrough acceptAll optionsA' posts)) = count posts ∧
    (∀ s, id nodeA2 = Some s →
          getNode (IdString s) (snd (updateNode passThrough acceptAll optionsA' posts))
            = Some nodeA2) ∧
    _events (snd (updateNode passThrough acceptAll optionsA' posts))
      = _events posts ++ [EvUpdate nodeA2 oldNode].
Proof.
  split; [reflexivity|].
  apply (updateNode_success passThrough acceptAll optionsA' posts _ nodeA2 posts_uniqueIds).
  reflexivity.
Defined.

(** Against C4 as stated: no node of the sample store has the id "zzz",
    yet [updateNode] with that id and the [$uid] of node "a" does not
    throw; it rewrites node "a" and emits an event. *)
Lemma updateNode_absent_id_not_fatal :
  (∀ n, n ∈ data (_collection posts) → id n ≠ Some "zzz") ∧
  (∃ node this',
     updateNode passThrough acceptAll optionsZ posts = (Return (Some node), this') ∧
     id node = Some "zzz" ∧
     data (_collection this') ≠ data (_collection posts) ∧
     _events this' ≠ _events posts) ∧
  ¬ fatalOnAbsentId passThrough acceptAll optionsZ posts.
Proof.
  assert (∀ n, n ∈ data (_collection posts) → id n ≠ Some "zzz") as Habsent.
  { intros n Hn. by in_rows Hn. }
  split; [exact Habsent|]. split.
  - eexists. eexists. split; [reflexivity|]. split; [reflexivity|]. split; discriminate.
  - intros Hfatal. destruct (Hfatal Habsent) as [e He]. discriminate He.
Qed.

Lemma update_remove_absent_witness :
  (∃ e, updateNode passThrough acceptAll optionsC posts = (Throw e, posts)) ∧
  (∃ e, removeNode (IdString "c") posts = (Throw e, posts)).
Proof.
  destruct (update_remove_absent passThrough acceptAll optionsC posts "c") as [Hupd Hrem].
  split.
  - apply Hupd. reflexivity.
  - apply Hrem. intros n Hn. by in_rows Hn.
Defined.



Lemma add_update_abort_witness :
  addNode passThrough vetoAll optionsC posts = (Return None, posts) ∧
  (∃ this',
     addNode passThrough acceptAll optionsDup posts = (Return None, this') ∧
     _collection this' = _collection posts ∧
     _events this' = _events posts ∧
     warnings this' =
       warnings posts ++ [("Failed to add node: Duplicate key for property id: a", "Post")]) ∧
  (∃ this',
     updateNode passThrough acceptAll optionsAB posts = (Return None, this') ∧
     _collection this' = _collection posts ∧
     _events this' = _events posts ∧
     warnings this' =
       warnings posts ++ [("Failed to update node: Duplicate key for property id: b", "Post")]).
Proof.
  split; [|split].
  - apply (add_update_abort passThrough vetoAll optionsC posts). reflexivity.
  - apply (proj1 (proj2 (add_update_abort passThrough acceptAll optionsDup posts))
             optionsDup (duplicateKey "a")); reflexivity.
  - apply (proj2 (proj2 (add_update_abort passThrough acceptAll optionsAB posts))
             nodeA optionsAB (duplicateKey "b")); reflexivity.
Defined.

Lemma add_get_remove_witness :
  getNode (IdString "c") (snd (addNode passThrough acceptAll optionsC posts)) = Some nodeC ∧
  ∃ this'',
    removeNode (IdString "c") (snd (addNode passThrough acceptAll optionsC posts))
      = (Return None, this'') ∧
    getNode (IdString "c") this'' = None.
Proof.
  apply (add_get_remove passThrough acceptAll optionsC posts _ nodeC "c"); reflexivity.
Defined.

End NodeStoreFacts.

(** ** Properties of the schema builder *)

Module SchemaFacts.
Import Schema.

Lemma lookupKey_assignKey {A : Type} (k k' : string) (v : A) (l : list (string * A)) :
  lookupKey k' (assignKey k v l) = if bool_decide (k = k') then Some v else lookupKey k' l.
Proof.
  induction l as [|[k0 v0] l IH]; simpl.
  - done.
  - destruct (bool_decide (k0 = k)) eqn:H0; simpl.
    + apply bool_decide_eq_true in H0 as ->. by destruct (bool_decide (k = k')).
    + rewrite IH. destruct (bool_decide (k0 = k')) eqn:H1; [|done].
      apply bool_decide_eq_true in H1 as ->.
      apply bool_decide_eq_false in H0. by rewrite bool_decide_eq_false_2.
Qed.

Lemma lookupKey_assignKey_eq {A : Type} (k : string) (v : A) (l : list (string * A)) :
  lookupKey k (assignKey k v l) = Some v.
Proof. rewrite lookupKey_assignKey. by rewrite bool_decide_eq_true_2. Qed.

Lemma lookupKey_assignKey_ne {A : Type} (k k' : string) (v : A) (l : list (string * A)) :
  k ≠ k' → lookupKey k' (assignKey k v l) = lookupKey k' l.
Proof. intros H. rewrite lookupKey_assignKey. by rewrite bool_decide_eq_false_2. Qed.

Lemma lookupKey_in_keys {A : Type} (k : string) (l : list (string * A)) :
  k ∈ List.map fst l → is_Some (lookupKey k l).
Proof.
  induction l as [|[k0 v0] l IH]; simpl; intros H; [inversion H|].
  destruct (bool_decide (k0 = k)) eqn:H0; [eauto|].
  apply bool_decide_eq_false in H0.
  apply elem_of_cons in H as [->|H]; [done | auto].
Qed.

Lemma getFieldConfig_setField (tc : TypeComposer) (f f' : string) (fc : FieldConfig) :
  getFieldConfig (setField tc f fc) f' =
    if bool_decide (f = f') then Some fc else getFieldConfig tc f'.
Proof. unfold getFieldConfig, setField. simpl. apply lookupKey_assignKey. Qed.

Lemma lookupKey_Some_in_keys {A : Type} (k : string) (v : A) (l : list (string * A)) :
  lookupKey k l = Some v → k ∈ List.map fst l.
Proof.
  induction l as [|[k0 v0] l IH]; simpl; [done|].
  destruct (bool_decide (k0 = k)) eqn:H0.
  - apply bool_decide_eq_true in H0 as ->. intros _. left.
  - intros H. right. auto.
Qed.

Lemma spread2_lookup (a b : option argsMap) (k : string) :
  spread2 a b !! k =
    match spread b !! k with Some v => Some v | None => spread a !! k end.
Proof.
  unfold spread2. rewrite lookup_union.
  destruct (spread b !! k), (spread a !! k); done.
Qed.

Section WiringFacts.

Variable scalarTypeResolvers : gmap string Resolver.

Abbreviation fieldResolverOf := (fieldResolverOf scalarTypeResolvers).
Abbreviation processObjectField := (processObjectField scalarTypeResolvers).
Abbreviation processObjectFieldsLoop := (processObjectFieldsLoop scalarTypeResolvers).
Abbreviation processObjectFields := (processObjectFields scalarTypeResolvers).
Abbreviation wire := (wire scalarTypeResolvers).

(** For a field whose type is a Node type, the resolver picked is the
    type's [findMany] for a list and its [findOne] otherwise. *)
Lemma fieldResolverOf_node (schemaComposer : SchemaComposer) (fc : FieldConfig)
    (target : TypeComposer) (resolver : Resolver) :
  get schemaComposer (getNamedType (type fc)) = Some target →
  isObject target = true → hasInterface "Node" target = true →
  resolvers target !! (if isPlural (type fc) then "findMany" else "findOne") = Some resolver →
  fieldResolverOf schemaComposer fc = Return (Some resolver).
Proof.
  intros Hget Hobj Hnode Hres. unfold Schema.fieldResolverOf, getFieldTC.
  rewrite Hget, Hobj, Hnode. simpl. unfold getResolver. by rewrite Hres.
Qed.

(** When a resolver is picked for such a field, it is that one. *)
Lemma fieldResolverOf_node_inv (schemaComposer : SchemaComposer) (fc : FieldConfig)
    (target : TypeComposer) (r : option Resolver) :
  get schemaComposer (getNamedType (type fc)) = Some target →
  isObject target = true → hasInterface "Node" target = true →
  fieldResolverOf schemaComposer fc = Return r →
  ∃ resolver,
    r = Some resolver ∧
    resolvers target !! (if isPlural (type fc) then "findMany" else "findOne") = Some resolver.
Proof.
  intros Hget Hobj Hnode. unfold Schema.fieldResolverOf, getFieldTC.
  rewrite Hget, Hobj, Hnode. simpl. unfold getResolver.
  destruct (resolvers target !! _) as [resolver|]; [|done].
  intros [= <-]. eauto.
Qed.

(** A turn of the loop that returns has picked a resolver, or none,
    without an error, and has rewritten the field it is at and no other. *)
Lemma processObjectField_inv (schemaComposer : SchemaComposer) (tc tc' : TypeComposer)
    (f : string) :
  processObjectField schemaComposer tc f = Return tc' →
  ∃ fc r,
    getFieldConfig tc f = Some fc ∧
    fieldResolverOf schemaComposer fc = Return r ∧
    ∀ g, getFieldConfig tc' g =
           if bool_decide (f = g) then Some (wire schemaComposer fc) else getFieldConfig tc g.
Proof.
  unfold Schema.processObjectField, getFieldResolver, Schema.wire.
  destruct (getFieldConfig tc f) as [fc|] eqn:Hf; [|done].
  destruct (fieldResolverOf schemaComposer fc) as [[resolver|]|] eqn:Hr; [| |done].
  - unfold extendField. rewrite Hf. intros [= <-].
    exists fc, (Some resolver). split; [done|]. split; [done|].
    intros g. by rewrite getFieldConfig_setField, Hr.
  - intros [= <-]. exists fc, None. split; [done|]. split; [done|].
    intros g. rewrite Hr. case_bool_decide as Hg; [by subst|done].
Qed.

(** A loop that returns has rewritten each of the fields it is given
    once, and has picked the resolver of each without an error. *)
Lemma processObjectFieldsLoop_inv (schemaComposer : SchemaComposer) (names : list string) :
  NoDup names →
  ∀ tc tc' : TypeComposer,
    processObjectFieldsLoop schemaComposer names tc = Return tc' →
    (∀ g, getFieldConfig tc' g =
            if bool_decide (g ∈ names)
            then wire schemaComposer <$> getFieldConfig tc g
            else getFieldConfig tc g) ∧
    (∀ n fc, n ∈ names → getFieldConfig tc n = Some fc →
             ∃ r, fieldResolverOf schemaComposer fc = Return r).
Proof.
  induction names as [|n rest IH]; intros Hnd tc tc';
    cbn [Schema.processObjectFieldsLoop].
  - intros [= <-]. split.
    + intros g. rewrite bool_decide_eq_false_2; [done | apply not_elem_of_nil].
    + intros m fc Hm. inversion Hm.
  - apply NoDup_cons in Hnd as [Hn Hrest].
    destruct (processObjectField schemaComposer tc n) as [tc1|] eqn:Hstep; [|done].
    intros Hloop.
    destruct (processObjectField_inv _ _ _ _ Hstep) as (fc & r & Hfc & Hr & Hcfg).
    destruct (IH Hrest tc1 tc' Hloop) as [Hcfg' Hpicked].
    split.
    + intros g. rewrite Hcfg', Hcfg.
      destruct (decide (n = g)) as [<-|Hne].
      * rewrite (bool_decide_eq_false_2 (n ∈ rest)) by done.
        rewrite !bool_decide_eq_true_2; [|left|done]. by rewrite Hfc.
      * rewrite (bool_decide_eq_false_2 (n = g)) by done.
        destruct (decide (g ∈ rest)) as [Hin|Hnin].
        -- rewrite !bool_decide_eq_true_2; [done|by right|done].
        -- rewrite !bool_decide_eq_false_2; [done| |done].
           intros Hin. apply elem_of_cons in Hin as [->|Hin]; done.
    + intros m fcm Hm Hfcm. apply elem_of_cons in Hm as [->|Hm].
      * assert (fcm = fc) as -> by congruence. eauto.
      * apply (Hpicked m fcm Hm). rewrite Hcfg.
        rewrite bool_decide_eq_false_2; [done|]. intros ->. done.
Qed.

(** A call of [processObjectFields] on a user-defined Object type other
    than [Query] that returns has rewritten every field of the type, each
    with the resolver picked for it. *)
Lemma processObjectFields_inv (schemaComposer : SchemaComposer)
    (typeComposer typeComposer' : TypeComposer) :
  NoDup (List.map fst (fields typeComposer)) →
  isObject typeComposer = true →
  typeName typeComposer ≠ "Query" →
  truthyExt (getExtension "isUserDefined" typeComposer) = true →
  processObjectFields schemaComposer typeComposer = Return typeComposer' →
  ∀ f fc, getFieldConfig typeComposer f = Some fc →
    (∃ r, fieldResolverOf schemaComposer fc = Return r) ∧
    getFieldConfig typeComposer' f = Some (wire schemaComposer fc).
Proof.
  intros Hnd Hobj Hquery Huser. unfold Schema.processObjectFields.
  rewrite Hobj, Huser. simpl. rewrite bool_decide_eq_false_2 by done.
  intros Hloop f fc Hf.
  destruct (processObjectFieldsLoop_inv schemaComposer _ Hnd _ _ Hloop) as [Hcfg Hpicked].
  assert (f ∈ List.map fst (fields typeComposer)) as Hin
    by (by eapply lookupKey_Some_in_keys).
  split; [by eapply Hpicked|].
  by rewrite Hcfg, bool_decide_eq_true_2, Hf.
Qed.

(** Such a call leaves a field whose named type is a Node type with the
    config [wired] from the target's resolver. *)
Lemma processObjectFields_wired (schemaComposer : SchemaComposer)
    (typeComposer typeComposer' : TypeComposer) (fieldName : string)
    (fieldConfig : FieldConfig) (target : TypeComposer) :
  NoDup (List.map fst (fields typeComposer)) →
  isObject typeComposer = true →
  typeName typeComposer ≠ "Query" →
  truthyExt (getExtension "isUserDefined" typeComposer) = true →
  getFieldConfig typeComposer fieldName = Some fieldConfig →
  get schemaComposer (getNamedType (type fieldConfig)) = Some target →
  isObject target = true →
  hasInterface "Node" target = true →
  processObjectFields schemaComposer typeComposer = Return typeComposer' →
  ∃ resolver,
    resolvers target !! (if isPlural (type fieldConfig) then "findMany" else "findOne")
      = Some resolver ∧
    getFieldConfig typeComposer' fieldName = Some (wired fieldConfig resolver).
Proof.
  intros Hnd Hobj Hquery Huser Hfield Hget Htobj Hnode Hp.
  destruct (processObjectFields_inv _ _ _ Hnd Hobj Hquery Huser Hp _ _ Hfield)
    as [[r Hr] Hcfg].
  destruct (fieldResolverOf_node_inv _ _ _ _ Hget Htobj Hnode Hr) as (resolver & -> & Hres).
  exists resolver. split; [done|].
  rewrite Hcfg. unfold Schema.wire. by rewrite Hr.
Qed.

(** *** The pass over the registry *)

Lemma sameButFields_refl (a : TypeComposer) : sameButFields a a.
Proof. by repeat split. Qed.

Lemma sameButFields_trans (a b c : TypeComposer) :
  sameButFields a b → sameButFields b c → sameButFields a c.
Proof.
  intros (H1 & H2 & H3 & H4 & H5) (K1 & K2 & K3 & K4 & K5).
  repeat split; congruence.
Qed.

Lemma sameTypes_refl (sc : SchemaComposer) : sameTypes sc sc.
Proof. intros n. destruct (get sc n); [apply sameButFields_refl | done]. Qed.

(** Picking a resolver reads no fields of the registry's types. *)
Lemma fieldResolverOf_sameTypes (sc sc' : SchemaComposer) (fc : FieldConfig) :
  sameTypes sc sc' → fieldResolverOf sc' fc = fieldResolverOf sc fc.
Proof.
  intros Hsame. unfold Schema.fieldResolverOf, getFieldTC.
  specialize (Hsame (getNamedType (type fc))).
  destruct (get sc (getNamedType (type fc))) as [a|],
           (get sc' (getNamedType (type fc))) as [b|]; try done.
  destruct Hsame as (Hname & Hkind & Hifaces & Hres & _).
  unfold isObject, hasInterface, getResolver.
  by rewrite Hname, Hkind, Hifaces, Hres.
Qed.

Lemma processObjectFieldsLoop_sameTypes (sc sc' : SchemaComposer) (names : list string) :
  sameTypes sc sc' →
  ∀ tc, processObjectFieldsLoop sc' names tc = processObjectFieldsLoop sc names tc.
Proof.
  intros Hsame. induction names as [|n names IH]; intros tc; simpl; [done|].
  assert (processObjectField sc' tc n = processObjectField sc tc n) as ->.
  { unfold Schema.processObjectField, getFieldResolver.
    destruct (getFieldConfig tc n) as [fc|]; [|done].
    by rewrite (fieldResolverOf_sameTypes sc sc' fc Hsame). }
  destruct (processObjectField sc tc n); [apply IH | done].
Qed.

Lemma processObjectFields_sameTypes (sc sc' : SchemaComposer) (tc : TypeComposer) :
  sameTypes sc sc' → processObjectFields sc' tc = processObjectFields sc tc.
Proof.
  intros Hsame. unfold Schema.processObjectFields.
  by rewrite (processObjectFieldsLoop_sameTypes sc sc' _ Hsame).
Qed.

Lemma processObjectField_frame (sc : SchemaComposer) (tc tc' : TypeComposer) (f : string) :
  processObjectField sc tc f = Return tc' → sameButFields tc tc'.
Proof.
  unfold Schema.processObjectField, extendField.
  destruct (getFieldConfig tc f) as [fc|]; [|done].
  destruct (getFieldResolver scalarTypeResolvers sc tc f) as [[r|]|]; [| |done].
  - intros [= <-]. by repeat split.
  - intros [= <-]. apply sameButFields_refl.
Qed.

Lemma processObjectFieldsLoop_frame (sc : SchemaComposer) (names : list string) :
  ∀ tc tc', processObjectFieldsLoop sc names tc = Return tc' → sameButFields tc tc'.
Proof.
  induction names as [|n names IH]; simpl; intros tc tc'.
  - intros [= <-]. apply sameButFields_refl.
  - destruct (processObjectField sc tc n) as [tc1|] eqn:Hstep; [|done].
    intros Hrest. eapply sameButFields_trans; [by eapply processObjectField_frame | eauto].
Qed.

Lemma processObjectFields_frame (sc : SchemaComposer) (tc tc' : TypeComposer) :
  processObjectFields sc tc = Return tc' → sameButFields tc tc'.
Proof.
  unfold Schema.processObjectFields.
  destruct (negb (isObject tc)); [intros [= <-]; apply sameButFields_refl|].
  case_bool_decide; [intros [= <-]; apply sameButFields_refl|].
  destruct (negb _); [intros [= <-]; apply sameButFields_refl|].
  apply processObjectFieldsLoop_frame.
Qed.

Lemma sameTypes_set (sc0 sc : SchemaComposer) (n : string) (tc tc' : TypeComposer) :
  sameTypes sc0 sc → get sc n = Some tc → sameButFields tc tc' →
  sameTypes sc0 (set sc n tc').
Proof.
  intros Hsame Hget Hframe m. specialize (Hsame m).
  unfold get, set in *. rewrite lookupKey_assignKey.
  case_bool_decide as Hnm; [|done]. subst m. rewrite Hget in Hsame.
  destruct (lookupKey n sc0); [|done]. by eapply sameButFields_trans.
Qed.

(** A pass that returns has processed each type of the registry once,
    with the outcome of processing it against the registry the pass began
    with. *)
Lemma processAllObjectFields_inv (sc0 : SchemaComposer) (names : list string) :
  NoDup names →
  ∀ sc sc', sameTypes sc0 sc →
    processAllObjectFields scalarTypeResolvers sc names = Return sc' →
    ∀ n tc, get sc n = Some tc →
      if bool_decide (n ∈ names)
      then ∃ tc', processObjectFields sc0 tc = Return tc' ∧ get sc' n = Some tc'
      else get sc' n = Some tc.
Proof.
  induction names as [|n0 rest IH]; intros Hnd sc sc' Hsame;
    cbn [Schema.processAllObjectFields].
  - intros [= <-] n tc Hget.
    rewrite bool_decide_eq_false_2; [done | apply not_elem_of_nil].
  - apply NoDup_cons in Hnd as [Hn0 Hrest].
    destruct (get sc n0) as [tc0|] eqn:Hget0.
    + rewrite (processObjectFields_sameTypes sc0 sc tc0 Hsame).
      destruct (processObjectFields sc0 tc0) as [tc0'|] eqn:Hp; [|done].
      intros Hall.
      pose proof (processObjectFields_frame _ _ _ Hp) as Hframe.
      pose proof (IH Hrest (set sc n0 tc0') sc'
                    (sameTypes_set _ _ _ _ _ Hsame Hget0 Hframe) Hall) as Hres.
      intros n tc Hget.
      destruct (decide (n0 = n)) as [<-|Hne].
      * rewrite bool_decide_eq_true_2 by left.
        assert (tc = tc0) as -> by congruence.
        exists tc0'. split; [done|].
        specialize (Hres n0 tc0'). rewrite (bool_decide_eq_false_2 _ Hn0) in Hres.
        apply Hres. unfold get, set. apply lookupKey_assignKey_eq.
      * assert (get (set sc n0 tc0') n = Some tc) as Hget'.
        { unfold get, set. by rewrite lookupKey_assignKey_ne. }
        specialize (Hres n tc Hget').
        destruct (decide (n ∈ rest)) as [Hin|Hnin].
        -- rewrite bool_decide_eq_true_2 in Hres by done.
           by rewrite bool_decide_eq_true_2 by (by right).
        -- rewrite bool_decide_eq_false_2 in Hres by done.
           rewrite bool_decide_eq_false_2; [done|].
           intros Hin. apply elem_of_cons in Hin as [->|Hin]; done.
    + intros Hall n tc Hget.
      pose proof (IH Hrest sc sc' Hsame Hall n tc Hget) as Hres.
      assert (n ≠ n0) as Hne by congruence.
      destruct (decide (n ∈ rest)) as [Hin|Hnin].
      * rewrite bool_decide_eq_true_2 in Hres by done.
        by rewrite bool_decide_eq_true_2 by (by right).
      * rewrite bool_decide_eq_false_2 in Hres by done.
        rewrite bool_decide_eq_false_2; [done|].
        intros Hin. apply elem_of_cons in Hin as [->|Hin]; done.
Qed.

(** C2. When the pass over the registry returns, it has left, on a
    user-defined Object type other than [Query], a field whose named type
    is a Node type of the registry as follows: the resolver picked is the
    target type's [findMany] when the field is a list and its [findOne]
    otherwise, and the target has it; the field's arguments are that
    resolver's arguments together with the field's own, the field's own
    winning under a shared name; the field's type and extensions are kept;
    and the field's resolve function calls the resolve function the field
    had (the picked resolver's when it had none) with the picked resolver's
    resolve function passed on as [info.originalResolver]. The keys of the
    registry and of the type's fields are distinct. (The pass throws
    instead when a field of a type it processes has a type that cannot be
    resolved, or a Node type without the resolver.) *)
Theorem processObjectFields_node_field (schemaComposer schemaComposer' : SchemaComposer)
    (name : string) (typeComposer : TypeComposer) (fieldName : string)
    (fieldConfig : FieldConfig) (target : TypeComposer) :
  NoDup (List.map fst schemaComposer) →
  get schemaComposer name = Some typeComposer →
  NoDup (List.map fst (fields typeComposer)) →
  isObject typeComposer = true →
  typeName typeComposer ≠ "Query" →
  truthyExt (getExtension "isUserDefined" typeComposer) = true →
  getFieldConfig typeComposer fieldName = Some fieldConfig →
  get schemaComposer (getNamedType (type fieldConfig)) = Some target →
  isObject target = true →
  hasInterface "Node" target = true →
  processAllObjectFields scalarTypeResolvers schemaComposer (List.map fst schemaComposer)
    = Return schemaComposer' →
  ∃ typeComposer' resolver fieldConfig',
    get schemaComposer' name = Some typeComposer' ∧
    processObjectFields schemaComposer typeComposer = Return typeComposer' ∧
    resolvers target !! (if isPlural (type fieldConfig) then "findMany" else "findOne")
      = Some resolver ∧
    getFieldConfig typeComposer' fieldName = Some fieldConfig' ∧
    type fieldConfig' = type fieldConfig ∧
    extensions fieldConfig' = extensions fieldConfig ∧
    args fieldConfig' = Some (spread2 (resolverArgs resolver) (args fieldConfig)) ∧
    (∀ a, spread (args fieldConfig') !! a =
            match spread (args fieldConfig) !! a with
            | Some v => Some v
            | None => spread (resolverArgs resolver) !! a
            end) ∧
    let originalResolver := default defaultFieldResolver (resolverResolve resolver) in
    ∃ resolve',
      resolve fieldConfig' = Some resolve' ∧
      ∀ info,
        call resolve' info =
          call (default originalResolver (resolve fieldConfig))
               {| fieldName := Schema.fieldName info;
                  originalResolver := Some originalResolver |}.
Proof.
  intros Hkeys Hget Hnd Hobj Hquery Huser Hfield Htarget Htobj Hnode Hall.
  pose proof (processAllObjectFields_inv schemaComposer (List.map fst schemaComposer)
                Hkeys schemaComposer schemaComposer' (sameTypes_refl _) Hall
                name typeComposer Hget) as Hres.
  rewrite bool_decide_eq_true_2 in Hres by (by eapply lookupKey_Some_in_keys).
  destruct Hres as (tc' & Hp & Hget').
  destruct (processObjectFields_wired schemaComposer typeComposer tc' fieldName fieldConfig
              target Hnd Hobj Hquery Huser Hfield Htarget Htobj Hnode Hp)
    as (resolver & Hres & Hcfg).
  exists tc', resolver, (wired fieldConfig resolver).
  repeat split; try done.
  - intros a. simpl. apply spread2_lookup.
  - simpl. eexists. split; [reflexivity|]. intros info. reflexivity.
Qed.

End WiringFacts.

(** *** The resolver overlay *)

Lemma addResolvers_single (schemaComposer : SchemaComposer) (typeName fieldName : string)
    (fieldOptions : FieldOptions) :
  addResolvers schemaComposer [(typeName, [(fieldName, fieldOptions)])] =
    match getOTC schemaComposer typeName with
    | Throw e => Throw e
    | Return tc =>
        match addResolversField typeName tc fieldName fieldOptions with
        | Throw e => Throw e
        | Return tc' => Return (set schemaComposer typeName tc')
        end
    end.
Proof.
  simpl. destruct (getOTC schemaComposer typeName); [|done].
  by destruct (addResolversField typeName a fieldName fieldOptions).
Qed.

(** C1, as amended. An overlay entry for a field that exists replaces the
    field's resolve function by one that calls the entry's, passing on the
    resolve function the field had (the default one when it had none) as
    [info.originalResolver]; the field's type is the entry's when it
    declares one and stays otherwise; the field's arguments are the
    entry's when it declares any and stay otherwise; the extensions and
    the other fields stay. *)
Theorem addResolvers_existing_field (typeName : string) (typeComposer : TypeComposer)
    (fieldName : string) (fieldOptions : FieldOptions) (field : FieldConfig) :
  getFieldConfig typeComposer fieldName = Some field →
  ∃ typeComposer' field',
    addResolversField typeName typeComposer fieldName fieldOptions = Return typeComposer' ∧
    getFieldConfig typeComposer' fieldName = Some field' ∧
    type field' = default (type field) (optType fieldOptions) ∧
    args field' = match optArgs fieldOptions with
                  | Some a => Some a
                  | None => args field
                  end ∧
    extensions field' = extensions field ∧
    (∀ g, g ≠ fieldName → getFieldConfig typeComposer' g = getFieldConfig typeComposer g) ∧
    let originalResolver := default defaultFieldResolver (resolve field) in
    resolve field' = Some (WithOriginal (optResolve fieldOptions) originalResolver) ∧
    ∀ f info,
      optResolve fieldOptions = Some f →
      call (WithOriginal (optResolve fieldOptions) originalResolver) info =
        call f {| Schema.fieldName := Schema.fieldName info;
                  originalResolver := Some originalResolver |}.
Proof.
  intros Hfield. unfold addResolversField, hasField, extendField. rewrite Hfield.
  eexists. eexists. split; [reflexivity|].
  split; [apply lookupKey_assignKey_eq|].
  repeat split.
  - intros g Hg. unfold getFieldConfig, setField. simpl.
    by apply lookupKey_assignKey_ne.
  - intros f info Hf. rewrite Hf. reflexivity.
Qed.

(** An overlay entry for a name that [hasField] does not answer for (the
    type has no such field, and the name is not one that every object
    inherits) throws when it declares no type, and adds the field with the
    entry's type, arguments and resolve function when it declares one,
    leaving the other fields as they were. *)
Lemma addResolvers_new_field (typeName : string) (typeComposer : TypeComposer)
    (fieldName : string) (fieldOptions : FieldOptions) :
  hasField typeComposer fieldName = false →
  (optType fieldOptions = None →
   addResolversField typeName typeComposer fieldName fieldOptions =
     Throw (Error (typeName +:+ "." +:+ fieldName +:+ " must have a 'type' property."))) ∧
  (∀ t, optType fieldOptions = Some t →
   ∃ typeComposer',
     addResolversField typeName typeComposer fieldName fieldOptions = Return typeComposer' ∧
     getFieldConfig typeComposer' fieldName =
       Some {| type := t; args := optArgs fieldOptions;
               resolve := optResolve fieldOptions; extensions := ∅ |} ∧
     ∀ g, g ≠ fieldName → getFieldConfig typeComposer' g = getFieldConfig typeComposer g).
Proof.
  intros Hno. unfold addResolversField. rewrite Hno. split.
  - by intros ->.
  - intros t ->. eexists. split; [reflexivity|]. split.
    + apply lookupKey_assignKey_eq.
    + intros g Hg. unfold getFieldConfig, setField. simpl.
      by apply lookupKey_assignKey_ne.
Qed.

Lemma addResolversField_kind (typeName : string) (tc tc' : TypeComposer) (f : string)
    (o : FieldOptions) :
  addResolversField typeName tc f o = Return tc' → kind tc' = kind tc.
Proof.
  unfold addResolversField, extendField.
  destruct (hasField tc f).
  - destruct (getFieldConfig tc f); [|done]. by intros [= <-].
  - destruct (optType o); [|done]. by intros [= <-].
Qed.

Lemma addResolversFields_kind (typeName : string) (fs : list (string * FieldOptions)) :
  ∀ tc tc', addResolversFields typeName fs tc = Return tc' → kind tc' = kind tc.
Proof.
  induction fs as [|[f o] fs IH]; simpl; intros tc tc'.
  - by intros [= <-].
  - destruct (addResolversField typeName tc f o) as [tc1|] eqn:Hstep; [|done].
    intros Hrest. rewrite (IH _ _ Hrest). by eapply addResolversField_kind.
Qed.

Lemma getOTC_Return (schemaComposer : SchemaComposer) (n : string) (tc : TypeComposer) :
  getOTC schemaComposer n = Return tc →
  get schemaComposer n = Some tc ∧ isObject tc = true.
Proof.
  unfold getOTC. destruct (get schemaComposer n) as [t|]; [|done].
  destruct (isObject t) eqn:Hobj; [|done]. by intros [= <-].
Qed.

Lemma getOTC_unknown (schemaComposer : SchemaComposer) (n : string) :
  isOTC schemaComposer n = false →
  getOTC schemaComposer n = Throw (Error ("Cannot find ObjectTypeComposer with name " +:+ n)).
Proof.
  unfold isOTC, getOTC. destruct (get schemaComposer n) as [t|]; [|done].
  by intros ->.
Qed.

(** Writing an Object type back under its name keeps the Object types. *)
Lemma isOTC_set (schemaComposer : SchemaComposer) (n m : string) (tc tc' : TypeComposer) :
  getOTC schemaComposer n = Return tc → kind tc' = kind tc →
  isOTC (set schemaComposer n tc') m = isOTC schemaComposer m.
Proof.
  intros Hotc Hkind. apply getOTC_Return in Hotc as [Hget Hobj].
  unfold isOTC, get, set. rewrite lookupKey_assignKey.
  case_bool_decide as Hnm; [|done]. subst m.
  unfold get in Hget. rewrite Hget. unfold isObject in *. by rewrite Hkind.
Qed.

(** C10. An overlay with an entry under a name that the registry does not
    hold as an Object type throws, whatever comes before that entry, and
    the outcome is the same whatever fields the entry has and whatever
    follows it; when the entry comes first, the error is the one of the
    lookup of the type. *)
Theorem addResolvers_unknown_type (typeName : string)
    (fields : list (string * FieldOptions))
    (before after : list (string * list (string * FieldOptions)))
    (schemaComposer : SchemaComposer) :
  isOTC schemaComposer typeName = false →
  (∃ e, addResolvers schemaComposer (before ++ (typeName, fields) :: after) = Throw e) ∧
  addResolvers schemaComposer (before ++ (typeName, fields) :: after) =
    addResolvers schemaComposer (before ++ [(typeName, [])]) ∧
  addResolvers schemaComposer ((typeName, fields) :: after) =
    Throw (Error ("Cannot find ObjectTypeComposer with name " +:+ typeName)).
Proof.
  revert schemaComposer.
  induction before as [|[t0 f0] before IH]; intros schemaComposer Hno.
  - simpl. rewrite (getOTC_unknown _ _ Hno). eauto.
  - split; [|split].
    + simpl. destruct (getOTC schemaComposer t0) as [tc|e] eqn:Hotc; [|eauto].
      destruct (addResolversFields t0 f0 tc) as [tc'|e] eqn:Hfs; [|eauto].
      apply IH. rewrite (isOTC_set _ _ _ tc tc' Hotc); [done|].
      by eapply addResolversFields_kind.
    + simpl. destruct (getOTC schemaComposer t0) as [tc|e] eqn:Hotc; [|done].
      destruct (addResolversFields t0 f0 tc) as [tc'|e] eqn:Hfs; [|done].
      apply IH. rewrite (isOTC_set _ _ _ tc tc' Hotc); [done|].
      by eapply addResolversFields_kind.
    + simpl. by rewrite (getOTC_unknown _ _ Hno).
Qed.

(** *** Type descriptors *)

Lemma extendFieldExtensions_typeName (tc : TypeComposer) (f : string) (e : extensionsMap) :
  typeName (extendFieldExtensions tc f e) = typeName tc.
Proof. unfold extendFieldExtensions. by destruct (getFieldConfig tc f). Qed.

Lemma fold_extendFieldExtensions_typeName (defs : list (string * fieldDefinition))
    (names : list string) :
  ∀ tc : TypeComposer,
    typeName
      (fold_left
         (fun tc fieldName =>
            extendFieldExtensions tc fieldName (fieldExtensionsOf (lookupKey fieldName defs)))
         names tc) = typeName tc.
Proof.
  induction names as [|n names IH]; intros tc; simpl; [done|].
  rewrite IH. apply extendFieldExtensions_typeName.
Qed.

Section CreateTypeFacts.

Variable createTypeName : string → string.

Abbreviation createType := (createType createTypeName).

Lemma createType_returns_as (schemaComposer : SchemaComposer) (type : createdType)
    (path : option (list (option string))) (n : string) :
  createdAs type = Object ∨ createdAs type = Union →
  negb (truthy (name (options type)))
    && bool_decide (length (default [name (options type)] path) = 1) = false →
  (if truthy (name (options type)) then default "" (name (options type))
   else createTypeName (join " " (default [name (options type)] path))) = n →
  ∃ tc, createType schemaComposer type path = Return (Some tc) ∧ typeName tc = n.
Proof.
  intros Hkind Hguard Hname. unfold Schema.createType. rewrite Hguard, Hname.
  destruct Hkind as [-> | ->].
  - eexists. split; [reflexivity|]. by rewrite fold_extendFieldExtensions_typeName.
  - eexists. split; [reflexivity|]. done.
Qed.

(** C8. For an Object or Union descriptor, a name given in the options is
    the name of the type; without one, a naming path that is not of length
    one gives the name made from the path joined with spaces. Without a
    name and with a path of length one (the default path is the
    descriptor's name alone), [createType] throws, whatever the
    descriptor's type. *)
Theorem createType_name (schemaComposer : SchemaComposer) (type : createdType)
    (path : option (list (option string))) :
  (∀ s, createdAs type = Object ∨ createdAs type = Union →
        name (options type) = Some s → s ≠ "" →
        ∃ tc, createType schemaComposer type path = Return (Some tc) ∧ typeName tc = s) ∧
  (∀ p, createdAs type = Object ∨ createdAs type = Union →
        truthy (name (options type)) = false →
        path = Some p → length p ≠ 1 →
        ∃ tc, createType schemaComposer type path = Return (Some tc) ∧
              typeName tc = createTypeName (join " " p)) ∧
  (truthy (name (options type)) = false →
   path = None ∨ (∃ p, path = Some p ∧ length p = 1) →
   createType schemaComposer type path = Throw (Error "Missing required type name.")).
Proof.
  split; [|split].
  - intros s Hkind Hname Hs.
    assert (truthy (name (options type)) = true) as Ht.
    { rewrite Hname. simpl. by rewrite bool_decide_eq_false_2. }
    apply createType_returns_as; [done| |].
    + by rewrite Ht.
    + by rewrite Ht, Hname.
  - intros p Hkind Ht -> Hlen.
    apply createType_returns_as; [done| |].
    + rewrite Ht. simpl. by rewrite bool_decide_eq_false_2.
    + by rewrite Ht.
  - intros Ht Hpath. unfold Schema.createType. rewrite Ht. simpl.
    rewrite bool_decide_eq_true_2; [done|].
    destruct Hpath as [->|(p & -> & Hlen)]; done.
Qed.

End CreateTypeFacts.

(** *** The claims at the sample registry *)

Import SchemaExamples.

Lemma processObjectFields_node_field_witness :
  ∃ typeComposer' resolver fieldConfig',
    get wiredRegistry "Post" = Some typeComposer' ∧
    processObjectFields ∅ registry Post = Return typeComposer' ∧
    resolvers Author !! (if isPlural (type contributors) then "findMany" else "findOne")
      = Some resolver ∧
    getFieldConfig typeComposer' "contributors" = Some fieldConfig' ∧
    type fieldConfig' = type contributors ∧
    extensions fieldConfig' = extensions contributors ∧
    args fieldConfig' = Some (spread2 (resolverArgs resolver) (args contributors)) ∧
    (∀ a, spread (args fieldConfig') !! a =
            match spread (args contributors) !! a with
            | Some v => Some v
            | None => spread (resolverArgs resolver) !! a
            end) ∧
    let originalResolver := default defaultFieldResolver (resolverResolve resolver) in
    ∃ resolve',
      resolve fieldConfig' = Some resolve' ∧
      ∀ info,
        call resolve' info =
          call (default originalResolver (resolve contributors))
               {| fieldName := Schema.fieldName info;
                  originalResolver := Some originalResolver |}.
Proof.
  apply (processObjectFields_node_field ∅ registry wiredRegistry "Post" Post "contributors"
           contributors Author).
  - apply (bool_decide_unpack _). vm_compute. exact I.
  - reflexivity.
  - apply (bool_decide_unpack _). vm_compute. exact I.
  - reflexivity.
  - discriminate.
  - reflexivity.
  - reflexivity.
  - reflexivity.
  - reflexivity.
  - reflexivity.
  - reflexivity.
Defined.

(** Against C1 as stated: the overlay entry for [Post.title] that declares
    the type [Int] and the argument [upper] leaves the field with type
    [Int] instead of [String], and without its argument [format]. *)
Lemma overlay_replaces_type_and_args :
  ∃ schemaComposer' typeComposer' field',
    addResolvers registry [("Post", [("title", titleOverlay)])] = Return schemaComposer' ∧
    get schemaComposer' "Post" = Some typeComposer' ∧
    getFieldConfig typeComposer' "title" = Some field' ∧
    type field' ≠ type title ∧
    spread (args title) !! "format" = Some (Named "String") ∧
    spread (args field') !! "format" = None ∧
    ¬ keepsTypeAndMergesArgs title field' titleOverlay.
Proof.
  eexists. eexists. eexists.
  split; [reflexivity|]. split; [reflexivity|]. split; [reflexivity|].
  split; [discriminate|]. split; [reflexivity|]. split; [reflexivity|].
  intros [Htype _]. discriminate Htype.
Qed.

Lemma addResolvers_existing_field_witness :
  ∃ typeComposer' field',
    addResolversField "Post" Post "title" titleOverlay = Return typeComposer' ∧
    getFieldConfig typeComposer' "title" = Some field' ∧
    type field' = Named "Int" ∧
    args field' = optArgs titleOverlay ∧
    extensions field' = extensions title ∧
    (∀ g, g ≠ "title" → getFieldConfig typeComposer' g = getFieldConfig Post g) ∧
    resolve field' = Some (WithOriginal (Some (Authored "custom")) (Authored "Post.title")) ∧
    ∀ f info,
      optResolve titleOverlay = Some f →
      call (WithOriginal (optResolve titleOverlay) (Authored "Post.title")) info =
        call f {| Schema.fieldName := Schema.fieldName info;
                  originalResolver := Some (Authored "Post.title") |}.
Proof.
  apply (addResolvers_existing_field "Post" Post "title" titleOverlay title).
  reflexivity.
Defined.

Lemma addResolvers_new_field_sample :
  addResolversField "Post" Post "excerpt" untypedOverlay =
    Throw (Error "Post.excerpt must have a 'type' property.") ∧
  ∃ typeComposer',
    addResolversField "Post" Post "excerpt" excerptOverlay = Return typeComposer' ∧
    getFieldConfig typeComposer' "excerpt" =
      Some {| type := Named "String"; args := None;
              resolve := Some (Authored "excerpt"); extensions := ∅ |} ∧
    ∀ g, g ≠ "excerpt" → getFieldConfig typeComposer' g = getFieldConfig Post g.
Proof.
  split.
  - apply (addResolvers_new_field "Post" Post "excerpt" untypedOverlay); reflexivity.
  - apply (proj2 (addResolvers_new_field "Post" Post "excerpt" excerptOverlay eq_refl)
             (Named "String")).
    reflexivity.
Qed.

(** C9. Where the claim fails: [Post] has no field [constructor], and the
    overlay entry [Post.constructor] declares the type [String], so the
    field is to be created; but [hasField] answers for the name, which the
    plain object of the fields inherits, the branch for an existing field
    is taken, and the overlay throws a [TypeError]. An entry for the name
    [excerpt], which nothing answers for, creates the field. *)
Lemma addResolvers_inherited_name :
  getFieldConfig Post "constructor" = None ∧
  ("constructor" ∉ List.map fst (fields Post)) ∧
  optType excerptOverlay = Some (Named "String") ∧
  hasField Post "constructor" = true ∧
  (∃ m, addResolversField "Post" Post "constructor" excerptOverlay = Throw (TypeError m)) ∧
  (∃ m, addResolvers registry [("Post", [("constructor", excerptOverlay)])]
          = Throw (TypeError m)) ∧
  (∃ schemaComposer' typeComposer',
     addResolvers registry [("Post", [("excerpt", excerptOverlay)])]
       = Return schemaComposer' ∧
     get schemaComposer' "Post" = Some typeComposer' ∧
     getFieldConfig typeComposer' "excerpt" =
       Some {| type := Named "String"; args := None;
               resolve := Some (Authored "excerpt"); extensions := ∅ |}).
Proof.
  split; [reflexivity|]. split.
  { apply (bool_decide_unpack _). vm_compute. exact I. }
  split; [reflexivity|]. split; [reflexivity|].
  split; [eexists; reflexivity|]. split; [eexists; reflexivity|].
  eexists. eexists. split; [reflexivity|]. split; reflexivity.
Qed.

Lemma addResolvers_unknown_type_witness :
  (∃ e, addResolvers registry
          ([("Post", [("excerpt", excerptOverlay)])]
             ++ ("Media", [("title", titleOverlay)]) :: [("Author", [])]) = Throw e) ∧
  addResolvers registry
    ([("Post", [("excerpt", excerptOverlay)])]
       ++ ("Media", [("title", titleOverlay)]) :: [("Author", [])]) =
    addResolvers registry ([("Post", [("excerpt", excerptOverlay)])] ++ [("Media", [])]) ∧
  addResolvers registry (("Media", [("title", titleOverlay)]) :: [("Author", [])]) =
    Throw (Error "Cannot find ObjectTypeComposer with name Media").
Proof.
  apply (addResolvers_unknown_type "Media" [("title", titleOverlay)]
           [("Post", [("excerpt", excerptOverlay)])] [("Author", [])] registry).
  reflexivity.
Defined.

Lemma createType_name_witness :
  (∃ tc, createType pascal registry namedDescriptor None = Return (Some tc) ∧
         typeName tc = "Post") ∧
  (∃ tc, createType pascal registry unnamedDescriptor (Some [Some "Post"; Some "meta"])
           = Return (Some tc) ∧
         typeName tc = pascal (join " " [Some "Post"; Some "meta"])) ∧
  createType pascal registry unnamedDescriptor None =
    Throw (Error "Missing required type name.").
Proof.
  split; [|split].
  - apply (proj1 (createType_name pascal registry namedDescriptor None) "Post");
      [by left | reflexivity | discriminate].
  - apply (proj1 (proj2 (createType_name pascal registry unnamedDescriptor
                           (Some [Some "Post"; Some "meta"])))
             [Some "Post"; Some "meta"]);
      [by left | reflexivity | reflexivity | discriminate].
  - apply (proj2 (proj2 (createType_name pascal registry unnamedDescriptor None)));
      [reflexivity | by left].
Defined.

End SchemaFacts.

(** ** More on the node store: invariants, frames and round trips *)

Module NodeStoreMore.
Import NodeStore NodeStoreFacts.

Lemma omap_loki_cons (r : Node) (l : list Node) :
  omap loki (r :: l) = match loki r with Some k => k :: omap loki l | None => omap loki l end.
Proof. reflexivity. Qed.

Lemma elem_of_omap_loki (k : nat) (l : list Node) :
  k ∈ omap loki l ↔ ∃ n, n ∈ l ∧ loki n = Some k.
Proof. apply list_elem_of_omap. Qed.

Lemma hasLoki_true (k : nat) (n : Node) : hasLoki k n = true ↔ loki n = Some k.
Proof. unfold hasLoki. by rewrite bool_decide_eq_true. Qed.

Lemma hasLoki_false (k : nat) (n : Node) : hasLoki k n = false ↔ loki n ≠ Some k.
Proof. unfold hasLoki. by rewrite bool_decide_eq_false. Qed.

(** Writing a document over the row with its own number keeps the row
    numbers as they are. *)
Lemma omap_loki_replaceRow (k : nat) (doc : Node) (l : list Node) :
  loki doc = Some k → omap loki (replaceRow k doc l) = omap loki l.
Proof.
  intros Hdoc. induction l as [|r l IH]; [done|].
  simpl. destruct (hasLoki k r) eqn:Hk.
  - apply hasLoki_true in Hk. by rewrite !omap_loki_cons, Hdoc, Hk.
  - by rewrite !omap_loki_cons, IH.
Qed.

(** With distinct row numbers, the row that [update] writes over is the
    prior node's, where it stands. *)
Lemma replaceRow_split (l : list Node) (k : nat) (doc old : Node) :
  NoDup (omap loki l) → old ∈ l → loki old = Some k →
  ∃ l1 l2, l = l1 ++ old :: l2 ∧ replaceRow k doc l = l1 ++ doc :: l2.
Proof.
  induction l as [|r l IH]; intros Hnd Hin Hk; [inversion Hin|].
  simpl. destruct (hasLoki k r) eqn:Hr.
  - apply hasLoki_true in Hr.
    apply elem_of_cons in Hin as [->|Hin]; [by exists [], l|].
    exfalso. rewrite omap_loki_cons, Hr in Hnd.
    apply NoDup_cons in Hnd as [Hnotin _]. apply Hnotin.
    apply elem_of_omap_loki. eauto.
  - apply hasLoki_false in Hr.
    apply elem_of_cons in Hin as [->|Hin]; [done|].
    destruct IH as (l1 & l2 & -> & Hrep); [|done|done|].
    { rewrite omap_loki_cons in Hnd. destruct (loki r); [|done].
      by apply NoDup_cons in Hnd as [_ ?]. }
    exists (r :: l1), l2. by rewrite Hrep.
Qed.

Lemma find_app_skip (f : Node → bool) (l1 l2 : list Node) (x : Node) :
  f x = false → List.find f (l1 ++ x :: l2) = List.find f (l1 ++ l2).
Proof.
  intros Hx. induction l1 as [|r l1 IH]; simpl.
  - by rewrite Hx.
  - by destruct (f r).
Qed.

Lemma find_filter_keeps (f p : Node → bool) (l : list Node) (m : Node) :
  List.find f l = Some m → p m = true → List.find f (List.filter p l) = Some m.
Proof.
  induction l as [|r l IH]; simpl; [done|].
  destruct (f r) eqn:Hf.
  - intros [= ->] Hp. rewrite Hp. simpl. by rewrite Hf.
  - intros Hfind Hp. destruct (p r); simpl; [rewrite Hf|]; by apply IH.
Qed.

Lemma find_filter_none (f p : Node → bool) (l : list Node) :
  List.find f l = None → List.find f (List.filter p l) = None.
Proof.
  induction l as [|r l IH]; simpl; [done|].
  destruct (f r) eqn:Hf; [done|].
  intros Hfind. destruct (p r); simpl; [rewrite Hf|]; by apply IH.
Qed.

Lemma find_app_none_r (f : Node → bool) (l : list Node) (x : Node) :
  f x = false → List.find f (l ++ [x]) = List.find f l.
Proof.
  intros Hx. induction l as [|r l IH]; simpl.
  - by rewrite Hx.
  - by destruct (f r).
Qed.

(** With unique ids, no row beside a node has the node's id. *)
Lemma unique_id_split (l1 l2 : list Node) (o n : Node) (s : string) :
  NoDup (omap id (l1 ++ o :: l2)) → id o = Some s → n ∈ l1 ++ l2 → id n ≠ Some s.
Proof.
  intros Hnd Ho Hn Hid. rewrite omap_id_app, omap_id_cons, Ho in Hnd.
  apply NoDup_app in Hnd as (_ & Hdisj & Hnd2).
  apply NoDup_cons in Hnd2 as [Hnotin _].
  apply elem_of_app in Hn as [Hn|Hn].
  - apply (Hdisj s); [apply elem_of_omap_id; eauto | left].
  - apply Hnotin. apply elem_of_omap_id. eauto.
Qed.

Lemma rowsNumbered_insert (doc node : Node) (c c' : Collection) :
  rowsNumbered c → insert doc c = inr (node, c') → rowsNumbered c'.
Proof.
  intros [Hnd Hbound]. unfold insert.
  destruct (loki doc); [done|]. destruct (taken (id doc) c); [done|].
  intros [= <- <-]. split; simpl.
  - rewrite omap_app. simpl.
    apply NoDup_app. split; [done|]. split; [|apply NoDup_singleton].
    intros k Hk Hk'. apply list_elem_of_singleton in Hk' as ->.
    apply elem_of_omap_loki in Hk as (n & Hn & Hn_k).
    destruct (Hbound n Hn) as (k & Hk & Hle). rewrite Hn_k in Hk.
    injection Hk as <-. lia.
  - intros n Hn. apply elem_of_app in Hn as [Hn|Hn].
    + destruct (Hbound n Hn) as (k & Hk & Hle). exists k. split; [done|]. lia.
    + apply list_elem_of_singleton in Hn as ->. exists (S (maxId c)). split; [done|]. lia.
Qed.

Lemma rowsNumbered_update (doc : Node) (c c' : Collection) :
  rowsNumbered c → update doc c = inr c' → rowsNumbered c'.
Proof.
  intros [Hnd Hbound] Hupd.
  assert (maxId c' = maxId c) as Hmax.
  { revert Hupd. unfold update. destruct (loki doc); [|done].
    destruct (List.find _ _); [|done].
    destruct (if bool_decide _ then _ else _); [done|]. by intros [= <-]. }
  apply update_inr in Hupd as (k & old & Hk & Hfind & _ & Hdata).
  apply List.find_some in Hfind as [Hin Hold]. apply list_elem_of_In in Hin.
  apply hasLoki_true in Hold.
  split.
  - by rewrite Hdata, omap_loki_replaceRow.
  - intros n Hn. rewrite Hmax. rewrite Hdata in Hn.
    apply elem_of_replaceRow in Hn as [->|Hn]; [|auto].
    destruct (Hbound old Hin) as (k' & Hk' & Hle). exists k.
    split; [done|]. congruence.
Qed.

Lemma NoDup_omap_loki_filter (f : Node → bool) (l : list Node) :
  NoDup (omap loki l) → NoDup (omap loki (List.filter f l)).
Proof.
  induction l as [|r l IH]; intros Hnd; [done|].
  assert (NoDup (omap loki l)) as Htail.
  { rewrite omap_loki_cons in Hnd. destruct (loki r); [|done].
    by apply NoDup_cons in Hnd as [_ ?]. }
  simpl. destruct (f r); [|by apply IH].
  rewrite omap_loki_cons in *. destruct (loki r) as [k|]; [|by apply IH].
  apply NoDup_cons in Hnd as [Hnotin _].
  apply NoDup_cons. split; [|by apply IH].
  intros Hk. apply Hnotin. apply elem_of_omap_loki in Hk as (n & Hn & Hn_k).
  apply list_elem_of_In, List.filter_In in Hn as [Hn _]. apply list_elem_of_In in Hn.
  apply elem_of_omap_loki. eauto.
Qed.

Lemma rowsNumbered_findAndRemove (q : query) (c : Collection) :
  rowsNumbered c → rowsNumbered (findAndRemove q c).
Proof.
  intros [Hnd Hbound]. split; simpl.
  - by apply NoDup_omap_loki_filter.
  - intros n Hn. apply list_elem_of_In, List.filter_In in Hn as [Hn _].
    apply Hbound. by apply list_elem_of_In.
Qed.

(** With distinct row numbers, [update] writes over the row of the node
    that has the document's row number. *)
Lemma update_split (doc old : Node) (c c' : Collection) :
  rowsNumbered c → update doc c = inr c' → old ∈ data c → loki old = loki doc →
  ∃ l1 l2, data c = l1 ++ old :: l2 ∧ data c' = l1 ++ doc :: l2.
Proof.
  intros [Hnd _] Hupd Hin Hloki.
  apply update_inr in Hupd as (k & _ & Hk & _ & _ & Hdata).
  rewrite Hk in Hloki.
  destruct (replaceRow_split _ k doc old Hnd Hin Hloki) as (l1 & l2 & Hsplit & Hrep).
  exists l1, l2. by rewrite Hdata.
Qed.

Lemma find_hasId_none_inv (s : string) (l : list Node) :
  List.find (hasId s) l = None → List.existsb (hasId s) l = false.
Proof.
  induction l as [|r l IH]; simpl; [done|].
  destruct (hasId s r); [done | exact IH].
Qed.

Lemma filter_hasId_unique (s : string) (l : list Node) :
  NoDup (omap id l) →
  List.filter (hasId s) l =
    match List.find (hasId s) l with Some n => [n] | None => [] end.
Proof.
  induction l as [|r l IH]; intros Hnd; [done|].
  simpl. destruct (hasId s r) eqn:Hr.
  - f_equal. apply hasId_true in Hr.
    assert (List.find (hasId s) l = None) as Hnone.
    { apply find_hasId_none, existsb_hasId_false. intros n Hn Hid.
      eapply NoDup_omap_head; eauto. }
    rewrite IH by (by eapply NoDup_omap_tail). by rewrite Hnone.
  - apply IH. by eapply NoDup_omap_tail.
Qed.

Lemma find_head_filter (f : Node → bool) (l : list Node) :
  List.find f l = head (List.filter f l).
Proof.
  induction l as [|r l IH]; simpl; [done|]. by destruct (f r).
Qed.

Lemma filter_length_lt (f : Node → bool) (l : list Node) (x : Node) :
  x ∈ l → f x = false → (length (List.filter f l) < length l)%nat.
Proof.
  induction l as [|r l IH]; intros Hin Hx; [inversion Hin|].
  pose proof (List.filter_length_le f l) as Hle.
  simpl. apply elem_of_cons in Hin as [<-|Hin].
  - rewrite Hx. lia.
  - specialize (IH Hin Hx). destruct (f r); simpl; lia.
Qed.

Lemma unique_id_eq (l : list Node) (a b : Node) (s : string) :
  NoDup (omap id l) → a ∈ l → b ∈ l → id a = Some s → id b = Some s → a = b.
Proof.
  intros Hnd Ha Hb Hida Hidb.
  pose proof (find_unique l a s Hnd Ha Hida) as H1.
  pose proof (find_unique l b s Hnd Hb Hidb) as H2.
  congruence.
Qed.

(** [data()] lists the rows. *)
Lemma allNodes_data (this : ContentType) : allNodes this = data (_collection this).
Proof. unfold allNodes, find. by apply filter_keeps_all. Qed.

Section More.

Variable normalizeNodeOptions : Node → ContentType → bool → Node.
Variable hooks_addNode : Node → ContentType → option Node.

Abbreviation addNode := (addNode normalizeNodeOptions hooks_addNode).
Abbreviation updateNode := (updateNode normalizeNodeOptions hooks_addNode).

(** X1. Row numbers stay distinct, present and within the last one given
    out under [addNode], [removeNode] and [updateNode], however the call
    ends. *)
Theorem rowsNumbered_kept (options : Node) (a : idOrQuery) (this : ContentType) :
  rowsNumbered (_collection this) →
  rowsNumbered (_collection (snd (addNode options this))) ∧
  rowsNumbered (_collection (snd (removeNode a this))) ∧
  rowsNumbered (_collection (snd (updateNode options this))).
Proof.
  intros Hrows.
  assert (∀ b, rowsNumbered (_collection (snd (removeNode b this)))) as Hremove.
  { intros b. unfold removeNode. destruct (findOne (toQuery b) (_collection this)); [|done].
    simpl. by apply rowsNumbered_findAndRemove. }
  split; [|split; [apply Hremove|]].
  - unfold NodeStore.addNode.
    destruct (hooks_addNode _ _) as [cand|]; [|done].
    destruct (insert cand (_collection this)) as [err|[n c]] eqn:Hins; [done|].
    simpl. by eapply rowsNumbered_insert.
  - unfold NodeStore.updateNode.
    destruct (getNode _ this) as [oldNode|]; [|done].
    destruct (hooks_addNode _ _) as [cand|]; [|apply Hremove].
    destruct (update _ (_collection this)) as [err|c] eqn:Hupd; [done|].
    simpl. by eapply rowsNumbered_update.
Qed.

(** X3. A successful [updateNode] writes the new node over the prior
    node's row and touches no other: the rows before it and after it are
    the same, in the same order. Row numbers are distinct. *)
Theorem updateNode_in_place (options : Node) (this this' : ContentType) (node : Node) :
  rowsNumbered (_collection this) →
  updateNode options this = (Return (Some node), this') →
  ∃ oldNode l1 l2,
    getNode (IdQuery (lookupQuery (normalizeNodeOptions options this true))) this
      = Some oldNode ∧
    allNodes this = l1 ++ oldNode :: l2 ∧
    allNodes this' = l1 ++ node :: l2.
Proof.
  intros [Hnd _]. unfold NodeStore.updateNode.
  set (opts := normalizeNodeOptions options this true).
  destruct (getNode (IdQuery (lookupQuery opts)) this) as [oldNode|] eqn:Hold; [|done].
  destruct (hooks_addNode opts this) as [cand|] eqn:Hhook;
    [|unfold removeNode; destruct (findOne _ _); done].
  set (n := set_loki (loki oldNode) (set_id (js_or (id opts) (id oldNode)) cand)).
  destruct (update n (_collection this)) as [err|c] eqn:Hupd; [done|].
  intros [= <- <-]. exists oldNode.
  apply update_inr in Hupd as (k & old & Hk & _ & _ & Hdata).
  assert (oldNode ∈ data (_collection this)) as Hin.
  { apply List.find_some in Hold as [Hin _]. by apply list_elem_of_In. }
  destruct (replaceRow_split _ k n oldNode Hnd Hin Hk) as (l1 & l2 & Hsplit & Hrep).
  exists l1, l2. rewrite !allNodes_data. simpl. by rewrite Hdata.
Qed.

(** What a successful [updateNode] went through. *)
Lemma updateNode_Some_inv (options : Node) (this this' : ContentType) (node : Node) :
  updateNode options this = (Return (Some node), this') →
  ∃ oldNode cand c,
    getNode (IdQuery (lookupQuery (normalizeNodeOptions options this true))) this
      = Some oldNode ∧
    hooks_addNode (normalizeNodeOptions options this true) this = Some cand ∧
    node = set_loki (loki oldNode)
             (set_id (js_or (id (normalizeNodeOptions options this true)) (id oldNode)) cand) ∧
    update node (_collection this) = inr c ∧
    this' = emit (EvUpdate node oldNode) (set_collection c this).
Proof.
  unfold NodeStore.updateNode.
  set (opts := normalizeNodeOptions options this true).
  destruct (getNode (IdQuery (lookupQuery opts)) this) as [oldNode|] eqn:Hold; [|done].
  destruct (hooks_addNode opts this) as [cand|] eqn:Hhook;
    [|unfold removeNode; destruct (findOne _ _); done].
  set (n := set_loki (loki oldNode) (set_id (js_or (id opts) (id oldNode)) cand)).
  destruct (update n (_collection this)) as [err|c] eqn:Hupd; [done|].
  intros [= <- <-]. exists oldNode, cand, c. done.
Qed.

Lemma updateNode_Some_split (options : Node) (this this' : ContentType) (node : Node) :
  rowsNumbered (_collection this) →
  updateNode options this = (Return (Some node), this') →
  ∃ oldNode l1 l2,
    getNode (IdQuery (lookupQuery (normalizeNodeOptions options this true))) this
      = Some oldNode ∧
    data (_collection this) = l1 ++ oldNode :: l2 ∧
    data (_collection this') = l1 ++ node :: l2.
Proof.
  intros Hrows Hupd.
  apply updateNode_Some_inv in Hupd as (oldNode & cand & c & Hold & _ & Hnode & Hupd & ->).
  assert (oldNode ∈ data (_collection this)) as Hin.
  { apply List.find_some in Hold as [Hin _]. by apply list_elem_of_In. }
  destruct (update_split node oldNode _ c Hrows Hupd Hin) as (l1 & l2 & Hsplit & Hc).
  { by rewrite Hnode. }
  exists oldNode, l1, l2. done.
Qed.

(** X4. When [updateNode] gives the prior node another id (it was found by
    its [$uid] and the options name a new id), the prior id leads to no
    node afterwards. Ids are unique and row numbers distinct. *)
Theorem updateNode_rekeys (options : Node) (this this' : ContentType)
    (node oldNode : Node) (s : string) :
  uniqueIds (_collection this) →
  rowsNumbered (_collection this) →
  updateNode options this = (Return (Some node), this') →
  getNode (IdQuery (lookupQuery (normalizeNodeOptions options this true))) this
    = Some oldNode →
  id oldNode = Some s →
  id node ≠ Some s →
  getNode (IdString s) this' = None.
Proof.
  intros Huniq Hrows Hupd Hold Hs Hne.
  destruct (updateNode_Some_split _ _ _ _ Hrows Hupd)
    as (old' & l1 & l2 & Hold' & Hsplit & Hdata).
  assert (old' = oldNode) as -> by congruence.
  unfold getNode, findOne. simpl. rewrite Hdata.
  change (matches (ById (Some s))) with (hasId s).
  rewrite find_app_skip by (by apply hasId_false).
  apply find_hasId_none, existsb_hasId_false. intros n Hn.
  unfold uniqueIds in Huniq. rewrite Hsplit in Huniq.
  by eapply unique_id_split.
Qed.

(** X5. The three writing methods leave [getNode] as it was for the ids
    they are not about: [addNode] for every id but the new node's,
    [updateNode] for every id but the prior and the new one, and
    [removeNode] for every id whose node has another [$uid] than the
    removed one (and for every id that led to no node). *)
Theorem getNode_other_ids (options : Node) (this this' : ContentType) (t : string) :
  (∀ node, addNode options this = (Return (Some node), this') →
           id node ≠ Some t →
           getNode (IdString t) this' = getNode (IdString t) this) ∧
  (∀ node oldNode,
     rowsNumbered (_collection this) →
     updateNode options this = (Return (Some node), this') →
     getNode (IdQuery (lookupQuery (normalizeNodeOptions options this true))) this
       = Some oldNode →
     id node ≠ Some t → id oldNode ≠ Some t →
     getNode (IdString t) this' = getNode (IdString t) this) ∧
  (∀ a removed,
     removeNode a this = (Return None, this') →
     getNode a this = Some removed →
     match getNode (IdString t) this with
     | Some m => uid m ≠ uid removed → getNode (IdString t) this' = Some m
     | None => getNode (IdString t) this' = None
     end).
Proof.
  split; [|split].
  - intros node. unfold NodeStore.addNode.
    destruct (hooks_addNode _ _) as [cand|]; [|done].
    destruct (insert cand (_collection this)) as [err|[n c]] eqn:Hins; [done|].
    intros [= -> <-] Hne.
    apply insert_inr in Hins as (_ & _ & _ & Hdata).
    unfold getNode, findOne. simpl. rewrite Hdata.
    change (matches (ById (Some t))) with (hasId t).
    apply find_app_none_r. by apply hasId_false.
  - intros node oldNode Hrows Hupd Hold Hnode Holdt.
    destruct (updateNode_Some_split _ _ _ _ Hrows Hupd)
      as (old' & l1 & l2 & Hold' & Hsplit & Hdata).
    assert (old' = oldNode) as -> by congruence.
    unfold getNode, findOne. simpl. rewrite Hdata, Hsplit.
    change (matches (ById (Some t))) with (hasId t).
    rewrite !find_app_skip; [done | by apply hasId_false | by apply hasId_false].
  - intros a removed. unfold removeNode, getNode.
    destruct (findOne (toQuery a) (_collection this)) as [node|]; [|done].
    intros [= <-] [= ->].
    unfold findOne. simpl.
    destruct (List.find (matches (ById (Some t))) (data (_collection this))) as [m|] eqn:Hm.
    + intros Hu. apply find_filter_keeps; [done|].
      apply negb_true_iff. by apply bool_decide_eq_false.
    + by apply find_filter_none.
Qed.

(** X6. [addNode] takes no second node under an id: when the candidate
    that the hook chain returns has the id of a node of the store, the
    call returns null and leaves the nodes and the events as they were;
    for a candidate without a row number of its own the one warning names
    the duplicate key. *)
Theorem addNode_duplicate_id (options : Node) (this : ContentType)
    (cand other : Node) (s : string) :
  hooks_addNode (normalizeNodeOptions options this true) this = Some cand →
  id cand = Some s →
  other ∈ data (_collection this) →
  id other = Some s →
  ∃ this',
    addNode options this = (Return None, this') ∧
    _collection this' = _collection this ∧
    _events this' = _events this ∧
    (loki cand = None →
     warnings this' =
       warnings this ++
         [("Failed to add node: Duplicate key for property id: " +:+ s, typeName this)]).
Proof.
  intros Hhook Hid Hin Hother. unfold NodeStore.addNode. rewrite Hhook.
  assert (List.existsb (hasId s) (data (_collection this)) = true) as Hex.
  { apply List.existsb_exists. exists other. split; [by apply list_elem_of_In|].
    by apply hasId_true. }
  unfold insert. destruct (loki cand) as [k|].
  - eexists. split; [reflexivity|]. done.
  - rewrite Hid. simpl. rewrite Hex.
    eexists. split; [reflexivity|]. done.
Qed.

(** X7. [removeNode] with the id of a node of the store returns null,
    emits [remove] with that node, and takes out the rows that have the
    node's [$uid], those and no others; the id leads to no node
    afterwards. Ids are unique. *)
Theorem removeNode_existing (this : ContentType) (node : Node) (s : string) :
  uniqueIds (_collection this) →
  node ∈ data (_collection this) →
  id node = Some s →
  ∃ this',
    removeNode (IdString s) this = (Return None, this') ∧
    _events this' = _events this ++ [EvRemove node] ∧
    (∀ n, n ∈ allNodes this' ↔ n ∈ allNodes this ∧ uid n ≠ uid node) ∧
    (count this' < count this)%nat ∧
    getNode (IdString s) this' = None.
Proof.
  intros Huniq Hin Hid. unfold removeNode, findOne. simpl.
  change (matches (ById (Some s))) with (hasId s).
  rewrite (find_unique _ node s Huniq Hin Hid).
  eexists. split; [reflexivity|]. split; [done|]. split; [|split].
  - intros n. rewrite !allNodes_data. simpl.
    rewrite !list_elem_of_In, List.filter_In, negb_true_iff, bool_decide_eq_false.
    done.
  - unfold count. simpl. eapply filter_length_lt; [exact Hin|].
    apply negb_false_iff. by apply bool_decide_eq_true.
  - unfold getNode, findOne. simpl.
    change (matches (ById (Some s))) with (hasId s).
    apply find_hasId_none, existsb_hasId_false. intros n Hn Hn_id.
    apply list_elem_of_In, List.filter_In in Hn as [Hn Hneg].
    apply list_elem_of_In in Hn.
    assert (n = node) as -> by (by eapply (unique_id_eq _ n node s Huniq)).
    apply negb_true_iff, bool_decide_eq_false in Hneg. done.
Qed.

(** X8. An id is free again once [removeNode] has removed its node: an
    [addNode] whose candidate has that id (and no row number of its own)
    then returns the node, and [getNode] finds it under the id. Ids are
    unique. *)
Theorem removeNode_frees_id (options : Node) (this this' : ContentType)
    (cand : Node) (s : string) :
  uniqueIds (_collection this) →
  removeNode (IdString s) this = (Return None, this') →
  hooks_addNode (normalizeNodeOptions options this' true) this' = Some cand →
  id cand = Some s →
  loki cand = None →
  ∃ node this'',
    addNode options this' = (Return (Some node), this'') ∧
    id node = Some s ∧
    fields node = fields cand ∧
    getNode (IdString s) this'' = Some node.
Proof.
  intros Huniq Hrem Hhook Hid Hloki.
  assert (List.existsb (hasId s) (data (_collection this')) = false) as Hfree.
  { revert Hrem. unfold removeNode, findOne. simpl.
    change (matches (ById (Some s))) with (hasId s).
    destruct (List.find (hasId s) (data (_collection this))) as [node|] eqn:Hfind; [|done].
    intros [= <-]. simpl. apply existsb_hasId_false. intros n Hn Hn_id.
    apply list_elem_of_In, List.filter_In in Hn as [Hn Hneg].
    apply list_elem_of_In in Hn.
    apply List.find_some in Hfind as [Hin Hnode].
    apply list_elem_of_In in Hin. apply hasId_true in Hnode.
    assert (n = node) as -> by (by eapply (unique_id_eq _ n node s Huniq)).
    apply negb_true_iff, bool_decide_eq_false in Hneg. done. }
  unfold NodeStore.addNode. rewrite Hhook. unfold insert.
  rewrite Hloki, Hid. simpl. rewrite Hfree.
  eexists. eexists. split; [reflexivity|]. split; [done|]. split; [done|].
  unfold getNode, findOne. simpl.
  change (matches (ById (Some s))) with (hasId s).
  apply find_app_last; [by apply find_hasId_none | by apply hasId_true].
Qed.

(** X9. [findNode] returns the first of what [findNodes] returns, for
    every query; and with unique ids, [findNodes] by id returns the one
    node that [getNode] returns for the id, or nothing. *)
Theorem findNodes_getNode (this : ContentType) (s : string) :
  uniqueIds (_collection this) →
  (∀ q, findNode q this = head (findNodes q this)) ∧
  findNodes (ById (Some s)) this =
    match getNode (IdString s) this with Some n => [n] | None => [] end.
Proof.
  intros Huniq. split.
  - intros q. apply find_head_filter.
  - unfold findNodes, find, getNode, findOne. simpl.
    change (matches (ById (Some s))) with (hasId s).
    by apply filter_hasId_unique.
Qed.

(** X10. [addNode] returns the node whenever the hook chain returns a
    candidate without a row number whose id, if it has one, no node has:
    the node is the candidate under the next row number, it is the last of
    [data()], there is one node more, the one event is [add] with the
    node, and nothing is logged. *)
Theorem addNode_accepts (options : Node) (this : ContentType) (cand : Node) :
  hooks_addNode (normalizeNodeOptions options this true) this = Some cand →
  loki cand = None →
  (∀ s n, id cand = Some s → n ∈ data (_collection this) → id n ≠ Some s) →
  ∃ this',
    addNode options this
      = (Return (Some (set_loki (Some (S (maxId (_collection this)))) cand)), this') ∧
    allNodes this' = allNodes this ++ [set_loki (Some (S (maxId (_collection this)))) cand] ∧
    count this' = S (count this) ∧
    _events this'
      = _events this ++ [EvAdd (set_loki (Some (S (maxId (_collection this)))) cand)] ∧
    warnings this' = warnings this.
Proof.
  intros Hhook Hloki Hfree. unfold NodeStore.addNode. rewrite Hhook. unfold insert.
  rewrite Hloki.
  assert (taken (id cand) (_collection this) = None) as ->.
  { destruct (id cand) as [s|] eqn:Hid; [|done]. simpl.
    rewrite (proj2 (existsb_hasId_false s _)); [done|]. intros n Hn. by eapply Hfree. }
  eexists. split; [reflexivity|].
  rewrite !allNodes_data. unfold count. simpl.
  rewrite length_app. simpl. repeat split; try done. lia.
Qed.

End More.

(** *** At the sample store *)

Import StoreExamples.

Lemma posts_rowsNumbered : rowsNumbered (_collection posts).
Proof.
  split.
  - apply (bool_decide_unpack _). vm_compute. exact I.
  - intros n Hn. in_rows Hn; eexists; (split; [reflexivity | simpl; lia]).
Qed.

Lemma rowsNumbered_kept_witness :
  rowsNumbered (_collection (snd (addNode passThrough acceptAll optionsC posts))) ∧
  rowsNumbered (_collection (snd (removeNode (IdString "a") posts))) ∧
  rowsNumbered (_collection (snd (updateNode passThrough acceptAll optionsZ posts))).
Proof.
  split; [|split].
  - apply (rowsNumbered_kept passThrough acceptAll optionsC (IdString "a") posts
             posts_rowsNumbered).
  - apply (rowsNumbered_kept passThrough acceptAll optionsC (IdString "a") posts
             posts_rowsNumbered).
  - apply (rowsNumbered_kept passThrough acceptAll optionsZ (IdString "a") posts
             posts_rowsNumbered).
Defined.

Lemma uniqueIds_kept_witness :
  uniqueIds (_collection (snd (addNode passThrough acceptAll optionsC posts))) ∧
  uniqueIds (_collection (snd (removeNode (IdString "a") posts))) ∧
  uniqueIds (_collection (snd (updateNode passThrough acceptAll optionsZ posts))).
Proof.
  split; [|split].
  - apply (uniqueIds_kept passThrough acceptAll optionsC (IdString "a") posts
             posts_uniqueIds).
  - apply (uniqueIds_kept passThrough acceptAll optionsC (IdString "a") posts
             posts_uniqueIds).
  - apply (uniqueIds_kept passThrough acceptAll optionsZ (IdString "a") posts
             posts_uniqueIds).
Defined.

Lemma updateNode_in_place_witness :
  ∃ oldNode l1 l2,
    getNode (IdQuery (lookupQuery (passThrough optionsA' posts true))) posts = Some oldNode ∧
    allNodes posts = l1 ++ oldNode :: l2 ∧
    allNodes (snd (updateNode passThrough acceptAll optionsA' posts)) = l1 ++ nodeA2 :: l2.
Proof.
  apply (updateNode_in_place passThrough acceptAll optionsA' posts _ nodeA2
           posts_rowsNumbered).
  reflexivity.
Defined.

Lemma updateNode_rekeys_witness :
  getNode (IdString "a") (snd (updateNode passThrough acceptAll optionsZ posts)) = None.
Proof.
  apply (updateNode_rekeys passThrough acceptAll optionsZ posts _
           (set_loki (Some 1) optionsZ) nodeA "a" posts_uniqueIds posts_rowsNumbered);
    [reflexivity | reflexivity | reflexivity | discriminate].
Defined.

Lemma getNode_other_ids_witness :
  getNode (IdString "b") (snd (addNode passThrough acceptAll optionsC posts))
    = getNode (IdString "b") posts ∧
  getNode (IdString "b") (snd (updateNode passThrough acceptAll optionsZ posts))
    = getNode (IdString "b") posts ∧
  getNode (IdString "b") (snd (removeNode (IdString "a") posts)) = Some nodeB.
Proof.
  split; [|split].
  - apply (proj1 (getNode_other_ids passThrough acceptAll optionsC posts _ "b") nodeC);
      [reflexivity | discriminate].
  - apply (proj1 (proj2 (getNode_other_ids passThrough acceptAll optionsZ posts _ "b"))
             (set_loki (Some 1) optionsZ) nodeA posts_rowsNumbered);
      [reflexivity | reflexivity | discriminate | discriminate].
  - apply (proj2 (proj2 (getNode_other_ids passThrough acceptAll optionsC posts
                           (snd (removeNode (IdString "a") posts)) "b"))
             (IdString "a") nodeA eq_refl eq_refl).
    discriminate.
Defined.

Lemma addNode_duplicate_id_witness :
  ∃ this',
    addNode passThrough acceptAll optionsDup posts = (Return None, this') ∧
    _collection this' = _collection posts ∧
    _events this' = _events posts ∧
    (loki optionsDup = None →
     warnings this' =
       warnings posts ++
         [("Failed to add node: Duplicate key for property id: a", "Post")]).
Proof.
  apply (addNode_duplicate_id passThrough acceptAll optionsDup posts optionsDup nodeA "a");
    [reflexivity | reflexivity | left | reflexivity].
Defined.

Lemma removeNode_existing_witness :
  ∃ this',
    removeNode (IdString "a") posts = (Return None, this') ∧
    _events this' = _events posts ++ [EvRemove nodeA] ∧
    (∀ n, n ∈ allNodes this' ↔ n ∈ allNodes posts ∧ uid n ≠ uid nodeA) ∧
    (count this' < count posts)%nat ∧
    getNode (IdString "a") this' = None.
Proof.
  apply (removeNode_existing posts nodeA "a" posts_uniqueIds); [left | reflexivity].
Defined.

Lemma removeNode_frees_id_witness :
  ∃ node this'',
    addNode passThrough acceptAll optionsDup (snd (removeNode (IdString "a") posts))
      = (Return (Some node), this'') ∧
    id node = Some "a" ∧
    fields node = fields optionsDup ∧
    getNode (IdString "a") this'' = Some node.
Proof.
  apply (removeNode_frees_id passThrough acceptAll optionsDup posts _ optionsDup "a"
           posts_uniqueIds); reflexivity.
Defined.

Lemma findNodes_getNode_witness :
  (∀ q, findNode q posts = head (findNodes q posts)) ∧
  findNodes (ById (Some "a")) posts =
    match getNode (IdString "a") posts with Some n => [n] | None => [] end.
Proof.
  apply (findNodes_getNode posts "a" posts_uniqueIds).
Defined.

Lemma addNode_accepts_witness :
  ∃ this',
    addNode passThrough acceptAll optionsC posts = (Return (Some nodeC), this') ∧
    allNodes this' = allNodes posts ++ [nodeC] ∧
    count this' = S (count posts) ∧
    _events this' = _events posts ++ [EvAdd nodeC] ∧
    warnings this' = warnings posts.
Proof.
  apply (addNode_accepts passThrough acceptAll optionsC posts optionsC);
    [reflexivity | reflexivity |].
  intros s n Hs Hn. injection Hs as <-. by in_rows Hn.
Defined.

End NodeStoreMore.

(** ** The declarations of a content type *)

Module ContentTypeOptionsFacts.
Import ContentTypeOptions.

Section DeclarationFacts.

Variable FieldDeclaration : Type.
Variable createFieldName : string → bool → string.

Abbreviation Declarations := (Declarations FieldDeclaration).
Abbreviation addReference := (addReference FieldDeclaration createFieldName).
Abbreviation addSchemaField := (addSchemaField FieldDeclaration).


End DeclarationFacts.

Import DeclarationExamples.


End ContentTypeOptionsFacts.

(** ** More on the schema builder: frames, errors and how the phases compose *)

Module SchemaMore.
Import Schema SchemaFacts.

Lemma keys_assignKey {A : Type} (k : string) (v v0 : A) (l : list (string * A)) :
  lookupKey k l = Some v0 → List.map fst (assignKey k v l) = List.map fst l.
Proof.
  induction l as [|[k0 w] l IH]; simpl; [done|].
  destruct (bool_decide (k0 = k)) eqn:Hk.
  - apply bool_decide_eq_true in Hk as ->. done.
  - intros H. simpl. by rewrite IH.
Qed.

Lemma assignKey_same {A : Type} (k : string) (v : A) (l : list (string * A)) :
  lookupKey k l = Some v → assignKey k v l = l.
Proof.
  induction l as [|[k0 w] l IH]; simpl; [done|].
  destruct (bool_decide (k0 = k)) eqn:Hk.
  - apply bool_decide_eq_true in Hk as ->. by intros [= ->].
  - intros H. by rewrite IH.
Qed.

Lemma fieldShapes_setField (tc : TypeComposer) (f : string) (fc fc0 : FieldConfig) :
  getFieldConfig tc f = Some fc0 →
  type fc = type fc0 → extensions fc = extensions fc0 →
  fieldShapes (setField tc f fc) = fieldShapes tc.
Proof.
  unfold getFieldConfig, fieldShapes, setField. simpl.
  intros Hget Htype Hext. revert Hget.
  induction (fields tc) as [|[k0 w] l IH]; simpl; [done|].
  destruct (bool_decide (k0 = f)) eqn:Hk.
  - apply bool_decide_eq_true in Hk as ->. intros [= ->]. simpl. by rewrite Htype, Hext.
  - intros H. simpl. by rewrite IH.
Qed.

Section PassFacts.

Variable scalarTypeResolvers : gmap string Resolver.

Abbreviation fieldResolverOf := (fieldResolverOf scalarTypeResolvers).
Abbreviation processObjectField := (processObjectField scalarTypeResolvers).
Abbreviation processObjectFieldsLoop := (processObjectFieldsLoop scalarTypeResolvers).
Abbreviation processObjectFields := (processObjectFields scalarTypeResolvers).
Abbreviation processAllObjectFields := (processAllObjectFields scalarTypeResolvers).

(** One turn of the loop keeps the shape of the type and every other
    field. *)
Lemma processObjectField_keeps (sc : SchemaComposer) (tc tc' : TypeComposer) (f : string) :
  processObjectField sc tc f = Return tc' →
  fieldShapes tc' = fieldShapes tc ∧
  ∀ g, g ≠ f → getFieldConfig tc' g = getFieldConfig tc g.
Proof.
  unfold Schema.processObjectField, extendField.
  destruct (getFieldConfig tc f) as [fc|] eqn:Hf; [|done].
  destruct (getFieldResolver scalarTypeResolvers sc tc f) as [[r|]|]; [| |done].
  - intros [= <-]. split.
    + by eapply fieldShapes_setField.
    + intros g Hg. rewrite getFieldConfig_setField. by rewrite bool_decide_eq_false_2.
  - by intros [= <-].
Qed.

Lemma processObjectFieldsLoop_keeps (sc : SchemaComposer) (names : list string) :
  ∀ tc tc', processObjectFieldsLoop sc names tc = Return tc' →
    fieldShapes tc' = fieldShapes tc.
Proof.
  induction names as [|n names IH]; simpl; intros tc tc'.
  - by intros [= <-].
  - destruct (processObjectField sc tc n) as [tc1|] eqn:Hstep; [|done].
    intros Hrest. rewrite (IH _ _ Hrest).
    by apply processObjectField_keeps in Hstep as [? _].
Qed.

Lemma processObjectFields_keeps (sc : SchemaComposer) (tc tc' : TypeComposer) :
  processObjectFields sc tc = Return tc' → fieldShapes tc' = fieldShapes tc.
Proof.
  unfold Schema.processObjectFields.
  destruct (negb (isObject tc)); [by intros [= <-]|].
  case_bool_decide; [by intros [= <-]|].
  destruct (negb _); [by intros [= <-]|].
  apply processObjectFieldsLoop_keeps.
Qed.

Lemma processObjectFields_notWired (sc : SchemaComposer) (tc : TypeComposer) :
  notWired tc → processObjectFields sc tc = Return tc.
Proof.
  unfold Schema.processObjectFields. intros [Hobj|[Hq|Huser]].
  - by rewrite Hobj.
  - destruct (negb (isObject tc)); [done|]. by rewrite bool_decide_eq_true_2.
  - destruct (negb (isObject tc)); [done|]. case_bool_decide; [done|]. by rewrite Huser.
Qed.

Lemma sameShapes_refl (sc : SchemaComposer) : sameShapes sc sc.
Proof.
  split; [done|]. intros n. destruct (get sc n); [|done].
  split; [apply sameButFields_refl | done].
Qed.

Lemma sameShapes_trans (a b c : SchemaComposer) :
  sameShapes a b → sameShapes b c → sameShapes a c.
Proof.
  intros [Hk1 H1] [Hk2 H2]. split; [congruence|]. intros n.
  specialize (H1 n). specialize (H2 n).
  destruct (get a n), (get b n), (get c n); try done.
  destruct H1 as [F1 S1], H2 as [F2 S2]. split; [|congruence].
  by eapply sameButFields_trans.
Qed.

Lemma sameShapes_set (sc : SchemaComposer) (n : string) (tc tc' : TypeComposer) :
  get sc n = Some tc → sameButFields tc tc' → fieldShapes tc' = fieldShapes tc →
  sameShapes sc (set sc n tc').
Proof.
  intros Hget Hframe Hshape. split.
  - unfold set. by eapply keys_assignKey.
  - intros m. unfold get, set in *. rewrite lookupKey_assignKey.
    case_bool_decide as Hnm.
    + subst m. by rewrite Hget.
    + destruct (lookupKey m sc); [|done]. split; [apply sameButFields_refl | done].
Qed.

(** X11. When the pass over the registry returns, the registry has the
    same names in the same order, every type has its name, kind,
    interfaces, resolvers and extensions as before, and every field of
    every type is there as before with its type and its extensions: the
    pass adds no field, removes none, and changes arguments and resolve
    functions only. *)
Theorem pass_keeps_shapes (sc sc' : SchemaComposer) (names : list string) :
  processAllObjectFields sc names = Return sc' → sameShapes sc sc'.
Proof.
  revert sc. induction names as [|n0 rest IH]; simpl; intros sc.
  - intros [= <-]. apply sameShapes_refl.
  - destruct (get sc n0) as [tc0|] eqn:Hget; [|apply IH].
    destruct (processObjectFields sc tc0) as [tc0'|] eqn:Hp; [|done].
    intros Hrest. eapply sameShapes_trans; [|by apply IH].
    apply (sameShapes_set _ _ tc0); [done| |].
    + by eapply processObjectFields_frame.
    + by eapply processObjectFields_keeps.
Qed.

(** X12. When the pass over the registry returns, a type that is not an
    Object type, or is [Query], or is not flagged [isUserDefined], is in
    the registry exactly as it was. *)
Theorem pass_skips (sc sc' : SchemaComposer) (names : list string) (n : string)
    (tc : TypeComposer) :
  processAllObjectFields sc names = Return sc' →
  get sc n = Some tc →
  notWired tc →
  get sc' n = Some tc.
Proof.
  intros Hpass Hget Hskip. revert sc Hpass Hget.
  induction names as [|n0 rest IH]; simpl; intros sc.
  - by intros [= <-].
  - destruct (get sc n0) as [tc0|] eqn:Hget0; [|apply IH].
    destruct (processObjectFields sc tc0) as [tc0'|] eqn:Hp; [|done].
    intros Hrest Hget. apply (IH _ Hrest).
    unfold get, set in *. rewrite lookupKey_assignKey.
    case_bool_decide as Hnm; [|done]. subst n0.
    assert (tc0 = tc) as -> by congruence.
    rewrite (processObjectFields_notWired sc tc Hskip) in Hp. congruence.
Qed.

(** A turn of the loop at a field whose resolver cannot be picked throws. *)
Lemma processObjectFieldsLoop_throws (sc : SchemaComposer) (f : string) (fc : FieldConfig)
    (e : jsError) (names : list string) :
  fieldResolverOf sc fc = Throw e →
  ∀ tc, f ∈ names → getFieldConfig tc f = Some fc →
    ∃ e', processObjectFieldsLoop sc names tc = Throw e'.
Proof.
  intros Hthrow. induction names as [|n rest IH]; intros tc Hin Hf; [inversion Hin|].
  simpl. destruct (processObjectField sc tc n) as [tc1|e1] eqn:Hstep; [|eauto].
  destruct (decide (n = f)) as [->|Hne].
  - exfalso. revert Hstep. unfold Schema.processObjectField, getFieldResolver.
    rewrite Hf, Hthrow. done.
  - apply IH.
    + apply elem_of_cons in Hin as [->|Hin]; done.
    + apply processObjectField_keeps in Hstep as [_ Hother].
      rewrite Hother; [done|]. congruence.
Qed.

Lemma processAllObjectFields_throws (sc0 : SchemaComposer) (name : string)
    (tc : TypeComposer) (e : jsError) (names : list string) :
  processObjectFields sc0 tc = Throw e →
  ∀ sc, sameTypes sc0 sc → name ∈ names → get sc name = Some tc →
    ∃ e', processAllObjectFields sc names = Throw e'.
Proof.
  intros Hthrow. induction names as [|n0 rest IH]; intros sc Hsame Hin Hget;
    [inversion Hin|].
  simpl. destruct (decide (n0 = name)) as [->|Hne].
  - rewrite Hget, (processObjectFields_sameTypes _ sc0 sc tc Hsame), Hthrow. eauto.
  - apply elem_of_cons in Hin as [->|Hin]; [done|].
    destruct (get sc n0) as [tc0|] eqn:Hget0; [|by apply IH].
    destruct (processObjectFields sc tc0) as [tc0'|e0] eqn:Hp; [|eauto].
    apply IH; [|done|].
    + eapply sameTypes_set; [done | done |]. by eapply processObjectFields_frame.
    + unfold get, set in *. by rewrite lookupKey_assignKey_ne.
Qed.

(** X13. The pass throws when a user-defined Object type other than
    [Query] has a field whose named type is a Node type without the
    resolver the field calls for ([findMany] for a list, [findOne]
    otherwise): the turn of the loop at that field throws the error of
    [getResolver], and so do [processObjectFields] on the type and the
    pass over the registry, unless they threw before. *)
Theorem pass_throws_without_resolver (schemaComposer : SchemaComposer) (name : string)
    (typeComposer : TypeComposer) (fieldName : string) (fieldConfig : FieldConfig)
    (target : TypeComposer) :
  get schemaComposer name = Some typeComposer →
  isObject typeComposer = true →
  typeName typeComposer ≠ "Query" →
  truthyExt (getExtension "isUserDefined" typeComposer) = true →
  getFieldConfig typeComposer fieldName = Some fieldConfig →
  get schemaComposer (getNamedType (type fieldConfig)) = Some target →
  isObject target = true →
  hasInterface "Node" target = true →
  resolvers target !! (if isPlural (type fieldConfig) then "findMany" else "findOne") = None →
  processObjectField schemaComposer typeComposer fieldName =
    Throw (Error ("Type " +:+ typeName target +:+ " does not have resolver with name '"
                  +:+ (if isPlural (type fieldConfig) then "findMany" else "findOne")
                  +:+ "'")) ∧
  (∃ e, processObjectFields schemaComposer typeComposer = Throw e) ∧
  (∃ e, processAllObjectFields schemaComposer (List.map fst schemaComposer) = Throw e).
Proof.
  intros Hget Hobj Hquery Huser Hfield Htarget Htobj Hnode Hnone.
  assert (fieldResolverOf schemaComposer fieldConfig =
            Throw (Error ("Type " +:+ typeName target +:+ " does not have resolver with name '"
                  +:+ (if isPlural (type fieldConfig) then "findMany" else "findOne")
                  +:+ "'"))) as Hthrow.
  { unfold Schema.fieldResolverOf, getFieldTC. rewrite Htarget, Htobj, Hnode. simpl.
    unfold getResolver. by rewrite Hnone. }
  assert (∃ e, processObjectFields schemaComposer typeComposer = Throw e) as [e He].
  { unfold Schema.processObjectFields. rewrite Hobj, Huser. simpl.
    rewrite bool_decide_eq_false_2 by done.
    eapply processObjectFieldsLoop_throws; [exact Hthrow| |exact Hfield].
    by eapply lookupKey_Some_in_keys. }
  split; [|split; [eauto|]].
  - unfold Schema.processObjectField, getFieldResolver. by rewrite Hfield, Hthrow.
  - eapply processAllObjectFields_throws; [exact He | apply sameTypes_refl | | exact Hget].
    by eapply lookupKey_Some_in_keys.
Qed.

(** X14. When [processObjectFields] returns for a user-defined Object
    type other than [Query], it has left a field whose type resolves to a
    type that is not a Node type, and whose name is not one that every
    object inherits, as follows: when the table of scalar resolvers has an
    entry under the name of the field's type, the field is wired with that
    entry like a reference field is with its resolver (arguments merged,
    the field's own winning; the entry's resolve function passed on as
    [info.originalResolver]); when it has none, the field is exactly as it
    was. The keys of the type's fields are distinct. (Under a name that
    every object inherits, such as [toString], the table answers with the
    inherited member.) *)
Theorem processObjectFields_scalar_field (schemaComposer : SchemaComposer)
    (typeComposer typeComposer' : TypeComposer) (fieldName : string)
    (fieldConfig : FieldConfig) (fieldComposer : TypeComposer) :
  NoDup (List.map fst (fields typeComposer)) →
  isObject typeComposer = true →
  typeName typeComposer ≠ "Query" →
  truthyExt (getExtension "isUserDefined" typeComposer) = true →
  getFieldConfig typeComposer fieldName = Some fieldConfig →
  getFieldTC schemaComposer fieldConfig = Return fieldComposer →
  isObject fieldComposer && hasInterface "Node" fieldComposer = false →
  inherited (typeName fieldComposer) = false →
  processObjectFields schemaComposer typeComposer = Return typeComposer' →
  getFieldConfig typeComposer' fieldName =
    Some match scalarTypeResolvers !! typeName fieldComposer with
         | Some resolver =>
             {| type := type fieldConfig;
                args := Some (spread2 (resolverArgs resolver) (args fieldConfig));
                resolve :=
                  Some (WithOriginal
                          (Some (default
                                   (default defaultFieldResolver (resolverResolve resolver))
                                   (resolve fieldConfig)))
                          (default defaultFieldResolver (resolverResolve resolver)));
                extensions := extensions fieldConfig |}
         | None => fieldConfig
         end.
Proof.
  intros Hnd Hobj Hquery Huser Hfield Htc Hscalar Hown Hp.
  destruct (processObjectFields_inv scalarTypeResolvers _ _ _ Hnd Hobj Hquery Huser Hp
              _ _ Hfield) as [_ Hcfg].
  rewrite Hcfg. f_equal.
  unfold wire, Schema.fieldResolverOf, lookupResolver. rewrite Htc, Hscalar, Hown.
  by destruct (scalarTypeResolvers !! typeName fieldComposer).
Qed.

(** X15. The overlay comes after the pass: for a reference field that a
    pass which returned has wired, an overlay entry with a resolve function
    leaves a resolve function that calls the entry's with the wiring
    closure as [info.originalResolver], and calling that closure calls the
    resolve function the field had at first (the picked resolver's when it
    had none) with the picked resolver's as [info.originalResolver].
    Without arguments of its own, the entry leaves the merged arguments of
    the pass. *)
Theorem overlay_after_pass (schemaComposer wired' : SchemaComposer)
    (name : string) (typeComposer : TypeComposer) (fieldName : string)
    (fieldConfig : FieldConfig) (target : TypeComposer) (fieldOptions : FieldOptions) :
  NoDup (List.map fst schemaComposer) →
  get schemaComposer name = Some typeComposer →
  NoDup (List.map fst (fields typeComposer)) →
  isObject typeComposer = true →
  typeName typeComposer ≠ "Query" →
  truthyExt (getExtension "isUserDefined" typeComposer) = true →
  getFieldConfig typeComposer fieldName = Some fieldConfig →
  get schemaComposer (getNamedType (type fieldConfig)) = Some target →
  isObject target = true →
  hasInterface "Node" target = true →
  processAllObjectFields schemaComposer (List.map fst schemaComposer) = Return wired' →
  ∃ overlaid typeComposer'' field'' resolver,
    addResolvers wired' [(name, [(fieldName, fieldOptions)])] = Return overlaid ∧
    get overlaid name = Some typeComposer'' ∧
    getFieldConfig typeComposer'' fieldName = Some field'' ∧
    resolvers target !! (if isPlural (type fieldConfig) then "findMany" else "findOne")
      = Some resolver ∧
    (optArgs fieldOptions = None →
     args field'' = Some (spread2 (resolverArgs resolver) (args fieldConfig))) ∧
    let picked := default defaultFieldResolver (resolverResolve resolver) in
    let closure := WithOriginal (Some (default picked (resolve fieldConfig))) picked in
    resolve field'' = Some (WithOriginal (optResolve fieldOptions) closure) ∧
    (∀ f info,
       optResolve fieldOptions = Some f →
       call (WithOriginal (optResolve fieldOptions) closure) info =
         call f {| Schema.fieldName := Schema.fieldName info;
                   originalResolver := Some closure |}) ∧
    (∀ info,
       call closure info =
         call (default picked (resolve fieldConfig))
              {| Schema.fieldName := Schema.fieldName info;
                 originalResolver := Some picked |}).
Proof.
  intros Hkeys Hget Hnd Hobj Hquery Huser Hfield Htarget Htobj Hnode Hall.
  pose proof (processAllObjectFields_inv scalarTypeResolvers schemaComposer
                (List.map fst schemaComposer) Hkeys schemaComposer wired'
                (sameTypes_refl _) Hall name typeComposer Hget) as Hres.
  rewrite bool_decide_eq_true_2 in Hres by (by eapply lookupKey_Some_in_keys).
  destruct Hres as (tc' & Hp & Hget').
  destruct (processObjectFields_wired scalarTypeResolvers schemaComposer typeComposer tc'
              fieldName fieldConfig target Hnd Hobj Hquery Huser Hfield Htarget
              Htobj Hnode Hp)
    as (resolver & Hres & Hcfg).
  assert (isObject tc' = true) as Hobj'.
  { apply processObjectFields_frame in Hp as (_ & Hkind & _).
    unfold isObject in *. by rewrite <- Hkind. }
  eexists. eexists. eexists. exists resolver.
  split.
  { rewrite addResolvers_single. unfold getOTC. rewrite Hget', Hobj'.
    unfold addResolversField, hasField, extendField. rewrite Hcfg. reflexivity. }
  split. { unfold get, set. apply lookupKey_assignKey_eq. }
  split. { apply lookupKey_assignKey_eq. }
  split; [exact Hres|]. split.
  { intros Hnoargs. simpl. by rewrite Hnoargs. }
  simpl. split; [done|]. split.
  - intros f info Hf. by rewrite Hf.
  - done.
Qed.

End PassFacts.

(** *** The overlay *)

Lemma addResolversField_other (typeName : string) (tc tc' : TypeComposer) (f : string)
    (o : FieldOptions) :
  addResolversField typeName tc f o = Return tc' →
  sameButFields tc tc' ∧ ∀ g, g ≠ f → getFieldConfig tc' g = getFieldConfig tc g.
Proof.
  unfold addResolversField, extendField. destruct (hasField tc f).
  - destruct (getFieldConfig tc f) as [fc|]; [|done].
    intros [= <-]. split; [by repeat split|].
    intros h Hh. rewrite getFieldConfig_setField. by rewrite bool_decide_eq_false_2.
  - destruct (optType o) as [t|]; [|done]. intros [= <-]. split; [by repeat split|].
    intros h Hh. rewrite getFieldConfig_setField. by rewrite bool_decide_eq_false_2.
Qed.

Lemma addResolversFields_other (typeName : string) (fs : list (string * FieldOptions)) :
  ∀ tc tc', addResolversFields typeName fs tc = Return tc' →
    sameButFields tc tc' ∧
    ∀ g, g ∉ List.map fst fs → getFieldConfig tc' g = getFieldConfig tc g.
Proof.
  induction fs as [|[f o] fs IH]; simpl; intros tc tc'.
  - intros [= <-]. split; [apply sameButFields_refl | done].
  - destruct (addResolversField typeName tc f o) as [tc1|] eqn:Hstep; [|done].
    intros Hrest. apply addResolversField_other in Hstep as [Hframe1 Hother1].
    apply IH in Hrest as [Hframe Hother]. split.
    + by eapply sameButFields_trans.
    + intros g Hg. apply not_elem_of_cons in Hg as [Hne Hg].
      rewrite Hother by done. by apply Hother1.
Qed.

Lemma addResolvers_keys (overlay : list (string * list (string * FieldOptions))) :
  ∀ sc sc', addResolvers sc overlay = Return sc' → List.map fst sc' = List.map fst sc.
Proof.
  induction overlay as [|[n0 fs0] rest IH]; simpl; intros sc sc'.
  - by intros [= <-].
  - destruct (getOTC sc n0) as [tc0|] eqn:Hotc; [|done].
    destruct (addResolversFields n0 fs0 tc0) as [tc0'|] eqn:Hfs; [|done].
    intros Hrest. rewrite (IH _ _ Hrest).
    apply getOTC_Return in Hotc as [Hget _]. by eapply keys_assignKey.
Qed.

Lemma addResolvers_sameTypes (overlay : list (string * list (string * FieldOptions))) :
  ∀ sc0 sc sc', sameTypes sc0 sc → addResolvers sc overlay = Return sc' → sameTypes sc0 sc'.
Proof.
  induction overlay as [|[n0 fs0] rest IH]; simpl; intros sc0 sc sc' Hsame.
  - by intros [= <-].
  - destruct (getOTC sc n0) as [tc0|] eqn:Hotc; [|done].
    destruct (addResolversFields n0 fs0 tc0) as [tc0'|] eqn:Hfs; [|done].
    apply IH. apply getOTC_Return in Hotc as [Hget _].
    eapply sameTypes_set; [done | done |].
    by apply addResolversFields_other in Hfs as [? _].
Qed.

Lemma addResolvers_unnamed_type (overlay : list (string * list (string * FieldOptions)))
    (m : string) :
  m ∉ List.map fst overlay →
  ∀ sc sc', addResolvers sc overlay = Return sc' → get sc' m = get sc m.
Proof.
  induction overlay as [|[n0 fs0] rest IH]; simpl; intros Hm sc sc'.
  - by intros [= <-].
  - apply not_elem_of_cons in Hm as [Hne Hm].
    destruct (getOTC sc n0) as [tc0|] eqn:Hotc; [|done].
    destruct (addResolversFields n0 fs0 tc0) as [tc0'|] eqn:Hfs; [|done].
    intros Hrest. rewrite (IH Hm _ _ Hrest).
    unfold get, set. by rewrite lookupKey_assignKey_ne.
Qed.

Lemma addResolvers_unnamed_field (overlay : list (string * list (string * FieldOptions)))
    (m f : string) :
  (∀ fs, (m, fs) ∈ overlay → f ∉ List.map fst fs) →
  ∀ sc sc' tc, addResolvers sc overlay = Return sc' → get sc m = Some tc →
    ∃ tc', get sc' m = Some tc' ∧ getFieldConfig tc' f = getFieldConfig tc f.
Proof.
  induction overlay as [|[n0 fs0] rest IH]; simpl; intros Hf sc sc' tc.
  - intros [= <-] Hget. eauto.
  - destruct (getOTC sc n0) as [tc0|] eqn:Hotc; [|done].
    destruct (addResolversFields n0 fs0 tc0) as [tc0'|] eqn:Hfs; [|done].
    intros Hrest Hget.
    apply getOTC_Return in Hotc as [Hget0 _].
    assert (∀ fs, (m, fs) ∈ rest → f ∉ List.map fst fs) as Hf'.
    { intros fs Hin. apply Hf. by right. }
    destruct (decide (n0 = m)) as [->|Hne].
    + assert (tc0 = tc) as -> by congruence.
      destruct (IH Hf' _ _ tc0' Hrest) as (tc' & Hget' & Hcfg).
      { unfold get, set. apply lookupKey_assignKey_eq. }
      exists tc'. split; [done|]. rewrite Hcfg.
      apply addResolversFields_other in Hfs as [_ Hother]. apply Hother, Hf. left.
    + apply (IH Hf' _ _ tc Hrest).
      unfold get, set in *. by rewrite lookupKey_assignKey_ne.
Qed.

(** X16. An overlay that is applied without an error touches what it
    names and nothing else: the registry keeps its names in their order;
    every type keeps its name, kind, interfaces, resolvers and extensions;
    a type that the overlay has no entry for is as it was; and on a type
    that it has entries for, every field that none of them names is as it
    was. *)
Theorem addResolvers_frame (overlay : list (string * list (string * FieldOptions)))
    (schemaComposer schemaComposer' : SchemaComposer) :
  addResolvers schemaComposer overlay = Return schemaComposer' →
  List.map fst schemaComposer' = List.map fst schemaComposer ∧
  sameTypes schemaComposer schemaComposer' ∧
  (∀ m, m ∉ List.map fst overlay → get schemaComposer' m = get schemaComposer m) ∧
  (∀ m f tc,
     get schemaComposer m = Some tc →
     (∀ fs, (m, fs) ∈ overlay → f ∉ List.map fst fs) →
     ∃ tc', get schemaComposer' m = Some tc' ∧
            getFieldConfig tc' f = getFieldConfig tc f).
Proof.
  intros Hadd. split; [by eapply addResolvers_keys|].
  split; [eapply addResolvers_sameTypes; [apply sameTypes_refl | exact Hadd]|].
  split.
  - intros m Hm. by eapply addResolvers_unnamed_type.
  - intros m f tc Hget Hf. by eapply addResolvers_unnamed_field.
Qed.

(** X17. Overlays stack: a second overlay entry for a field that a first
    one has overlaid calls its resolve function with the first overlay's
    closure as [info.originalResolver]; the field's type is the second
    entry's, else the first's, else the field's own, and so are its
    arguments. *)
Theorem addResolvers_twice (schemaComposer : SchemaComposer) (typeName fieldName : string)
    (typeComposer : TypeComposer) (field : FieldConfig) (first second : FieldOptions) :
  getOTC schemaComposer typeName = Return typeComposer →
  getFieldConfig typeComposer fieldName = Some field →
  ∃ once twice typeComposer'' field'',
    addResolvers schemaComposer [(typeName, [(fieldName, first)])] = Return once ∧
    addResolvers once [(typeName, [(fieldName, second)])] = Return twice ∧
    get twice typeName = Some typeComposer'' ∧
    getFieldConfig typeComposer'' fieldName = Some field'' ∧
    type field'' = default (default (type field) (optType first)) (optType second) ∧
    args field'' = match optArgs second with
                   | Some a => Some a
                   | None => match optArgs first with
                             | Some a => Some a
                             | None => args field
                             end
                   end ∧
    extensions field'' = extensions field ∧
    let prior := default defaultFieldResolver (resolve field) in
    resolve field'' =
      Some (WithOriginal (optResolve second) (WithOriginal (optResolve first) prior)) ∧
    ∀ f info,
      optResolve second = Some f →
      call (WithOriginal (optResolve second) (WithOriginal (optResolve first) prior)) info =
        call f {| Schema.fieldName := Schema.fieldName info;
                  originalResolver := Some (WithOriginal (optResolve first) prior) |}.
Proof.
  intros Hotc Hfield.
  pose proof (getOTC_Return _ _ _ Hotc) as [Hget Hobj].
  eexists. eexists. eexists. eexists.
  split.
  { rewrite addResolvers_single, Hotc.
    unfold addResolversField, hasField, extendField. rewrite Hfield. reflexivity. }
  split.
  { rewrite addResolvers_single. unfold getOTC, get, set.
    rewrite lookupKey_assignKey_eq.
    change (isObject (setField typeComposer fieldName _)) with (isObject typeComposer).
    rewrite Hobj.
    unfold addResolversField, hasField, extendField.
    rewrite getFieldConfig_setField, bool_decide_eq_true_2 by done. reflexivity. }
  split. { unfold get, set. apply lookupKey_assignKey_eq. }
  split. { apply lookupKey_assignKey_eq. }
  simpl. repeat split; try done.
  intros f info Hf. by rewrite Hf.
Qed.

(** *** Descriptors *)

Lemma lookupKey_map {A B : Type} (g : A → B) (k : string) (l : list (string * A)) :
  lookupKey k (List.map (fun kd => (fst kd, g (snd kd))) l) = g <$> lookupKey k l.
Proof.
  induction l as [|[k0 v] l IH]; simpl; [done|].
  by destruct (bool_decide (k0 = k)).
Qed.

Lemma getFieldConfig_extendFieldExtensions (tc : TypeComposer) (f g : string)
    (e : extensionsMap) :
  getFieldConfig (extendFieldExtensions tc f e) g =
    if bool_decide (f = g) then withExtensions e <$> getFieldConfig tc f
    else getFieldConfig tc g.
Proof.
  unfold extendFieldExtensions.
  destruct (getFieldConfig tc f) as [fc|] eqn:Hf.
  - rewrite getFieldConfig_setField. by case_bool_decide.
  - case_bool_decide as Hfg; [by subst|done].
Qed.

Lemma extendFieldExtensions_frame (tc : TypeComposer) (f : string) (e : extensionsMap) :
  sameButFields tc (extendFieldExtensions tc f e) ∧
  List.map fst (fields (extendFieldExtensions tc f e)) = List.map fst (fields tc).
Proof.
  unfold extendFieldExtensions.
  destruct (getFieldConfig tc f) as [fc|] eqn:Hf.
  - split; [by repeat split|]. simpl. by eapply keys_assignKey.
  - split; [apply sameButFields_refl | done].
Qed.

Section FoldFacts.

Variable E : string → extensionsMap.

Lemma fold_extend_frame (names : list string) :
  ∀ tc : TypeComposer,
    sameButFields tc
      (fold_left (fun tc fieldName => extendFieldExtensions tc fieldName (E fieldName))
         names tc) ∧
    List.map fst
      (fields (fold_left (fun tc fieldName => extendFieldExtensions tc fieldName (E fieldName))
                 names tc)) = List.map fst (fields tc).
Proof.
  induction names as [|n names IH]; intros tc; simpl.
  - split; [apply sameButFields_refl | done].
  - destruct (IH (extendFieldExtensions tc n (E n))) as [Hframe Hkeys].
    destruct (extendFieldExtensions_frame tc n (E n)) as [Hframe1 Hkeys1].
    split; [by eapply sameButFields_trans | congruence].
Qed.

Lemma fold_extend_fields (names : list string) :
  NoDup names →
  ∀ (tc : TypeComposer) g,
    getFieldConfig
      (fold_left (fun tc fieldName => extendFieldExtensions tc fieldName (E fieldName))
         names tc) g =
      if bool_decide (g ∈ names) then withExtensions (E g) <$> getFieldConfig tc g
      else getFieldConfig tc g.
Proof.
  induction names as [|n names IH]; intros Hnd tc g; cbn [fold_left].
  - rewrite bool_decide_eq_false_2; [done | apply not_elem_of_nil].
  - apply NoDup_cons in Hnd as [Hn Hnd]. rewrite (IH Hnd).
    rewrite !getFieldConfig_extendFieldExtensions.
    destruct (decide (n = g)) as [<-|Hne].
    + rewrite (bool_decide_eq_false_2 (n ∈ names)) by done.
      by rewrite !bool_decide_eq_true_2 by (done || left).
    + rewrite (bool_decide_eq_false_2 (n = g)) by done.
      destruct (decide (g ∈ names)) as [Hin|Hnin].
      * by rewrite !bool_decide_eq_true_2 by (done || by right).
      * rewrite !bool_decide_eq_false_2; [done| |done].
        intros Hin. apply elem_of_cons in Hin as [->|Hin]; done.
Qed.

End FoldFacts.

Section DescriptorFacts.

Variable createTypeName : string → string.
Variable addTypesFromSDL : string → SchemaComposer → completion SchemaComposer.
Variable scalarTypeResolvers : gmap string Resolver.

Abbreviation createType := (createType createTypeName).
Abbreviation addType := (addType createTypeName).
Abbreviation addTypeArray := (addTypeArray createTypeName).
Abbreviation addTypes := (addTypes createTypeName addTypesFromSDL).

(** The field that [createType] makes of a definition. *)
Lemma createType_object (schemaComposer : SchemaComposer) (type : createdType)
    (path : option (list (option string))) (tc : TypeComposer) :
  createdAs type = Object →
  NoDup (List.map fst (fieldDefinitions (options type))) →
  createType schemaComposer type path = Return (Some tc) →
  kind tc = ObjectTypeComposer ∧
  interfaces tc = interfaceNames (options type) ∧
  resolvers tc = ∅ ∧
  typeExtensions tc = default ∅ (extensionOptions (options type)) ∧
  List.map fst (fields tc) = List.map fst (fieldDefinitions (options type)) ∧
  ∀ f, getFieldConfig tc f =
         (fun d => withExtensions (fieldExtensionsOf (Some d)) (fieldOfDefinition d))
           <$> lookupKey f (fieldDefinitions (options type)).
Proof.
  intros Hkind Hnd. unfold Schema.createType. rewrite Hkind.
  destruct (negb _ && _); [done|]. intros [= <-].
  match goal with
  | |- context [fold_left _ ?names ?tc0] =>
      pose proof (fold_extend_frame
                    (fun fieldName =>
                       fieldExtensionsOf
                         (lookupKey fieldName (fieldDefinitions (options type))))
                    names tc0) as Hframe;
      pose proof (fold_extend_fields
                    (fun fieldName =>
                       fieldExtensionsOf
                         (lookupKey fieldName (fieldDefinitions (options type))))
                    names) as Hfields;
      cbv beta in Hframe, Hfields;
      set (result := fold_left _ names tc0) in *
  end.
  destruct Hframe as [(_ & Hk & Hi & Hr & He) Hkeys].
  assert (List.map fst
            (List.map (fun kd : string * fieldDefinition => (kd.1, fieldOfDefinition kd.2))
               (fieldDefinitions (options type)))
          = List.map fst (fieldDefinitions (options type))) as Hmap.
  { rewrite List.map_map. by apply List.map_ext. }
  split; [by rewrite <- Hk|]. split; [by rewrite <- Hi|]. split; [by rewrite <- Hr|].
  split. { rewrite <- He. simpl. by rewrite (right_id_L ∅ (∪)). }
  split. { rewrite Hkeys. exact Hmap. }
  intros f. unfold result. rewrite Hfields.
  2:{ simpl. by rewrite Hmap. }
  unfold getFieldConfig. simpl.
  rewrite lookupKey_map, Hmap.
  destruct (lookupKey f (fieldDefinitions (options type))) as [d|] eqn:Hd.
  - rewrite bool_decide_eq_true_2 by (by eapply lookupKey_Some_in_keys). done.
  - by case_bool_decide.
Qed.

(** X18. For an Object descriptor with distinct field names, the type
    that [createType] returns has the descriptor's fields in their order,
    each with the type, arguments and resolve function of its definition;
    the [options] block of a field given as a plain object becomes the
    field's extensions (over the extensions it declared), a field given as
    a bare type has none; and the [options] block of the descriptor
    becomes the extensions of the type. The type has the descriptor's
    interfaces and no resolver. *)
Theorem createType_fields (schemaComposer : SchemaComposer) (type : createdType)
    (path : option (list (option string))) (tc : TypeComposer) :
  createdAs type = Object →
  NoDup (List.map fst (fieldDefinitions (options type))) →
  createType schemaComposer type path = Return (Some tc) →
  kind tc = ObjectTypeComposer ∧
  interfaces tc = interfaceNames (options type) ∧
  resolvers tc = ∅ ∧
  typeExtensions tc = default ∅ (extensionOptions (options type)) ∧
  List.map fst (fields tc) = List.map fst (fieldDefinitions (options type)) ∧
  ∀ f,
    getFieldConfig tc f =
      match lookupKey f (fieldDefinitions (options type)) with
      | Some (FieldType t) =>
          Some {| type := t; args := None; resolve := None; extensions := ∅ |}
      | Some (FieldObject config fieldOptions) =>
          Some {| type := Schema.type config; args := args config;
                  resolve := resolve config;
                  extensions := default ∅ fieldOptions ∪ extensions config |}
      | None => None
      end.
Proof.
  intros Hkind Hnd Hcreate.
  destruct (createType_object _ _ _ _ Hkind Hnd Hcreate)
    as (Hk & Hi & Hr & He & Hkeys & Hfields).
  repeat split; try done.
  intros f. rewrite Hfields.
  destruct (lookupKey f (fieldDefinitions (options type))) as [[t|config [e|]]|]; simpl.
  - unfold withExtensions. simpl. by rewrite (left_id_L ∅ (∪)).
  - done.
  - done.
  - done.
Qed.

(** One well-named descriptor is registered under its name, flagged. *)
Lemma addType_returns (schemaComposer : SchemaComposer) (type : createdType) :
  wellNamed type →
  ∃ tc0,
    createType schemaComposer type None = Return (Some tc0) ∧
    typeName tc0 = default "" (name (options type)) ∧
    addType schemaComposer type =
      Return (set schemaComposer (default "" (name (options type)))
                (with_typeExtensions
                   (<["isUserDefined" := ExtBool true]> (typeExtensions tc0)) tc0)).
Proof.
  intros [Hkind Hname].
  destruct (createType_returns_as createTypeName schemaComposer type None
              (default "" (name (options type))) Hkind) as (tc0 & Hcreate & Htn).
  { by rewrite Hname. }
  { by rewrite Hname. }
  exists tc0. split; [done|]. split; [done|].
  unfold Schema.addType. rewrite Hcreate. simpl. by rewrite Htn.
Qed.

Lemma userDefinedAs_set (sc : SchemaComposer) (n m : string) (tc0 : TypeComposer) :
  typeName tc0 = n →
  (m = n ∨ userDefinedAs sc m) →
  userDefinedAs
    (set sc n (with_typeExtensions (<["isUserDefined" := ExtBool true]> (typeExtensions tc0)) tc0))
    m.
Proof.
  intros Htn Hm. unfold userDefinedAs, get, set. rewrite lookupKey_assignKey.
  case_bool_decide as Hnm.
  - subst m. eexists. split; [done|]. split; [done|].
    unfold getExtension. simpl. by rewrite lookup_insert_eq.
  - destruct Hm as [->|Hm]; done.
Qed.

Lemma addTypeArray_returns (types : list createdType) :
  (∀ d, d ∈ types → wellNamed d) →
  ∀ sc, ∃ sc',
    addTypeArray sc types = Return sc' ∧
    (∀ m, userDefinedAs sc m → userDefinedAs sc' m) ∧
    (∀ d, d ∈ types → userDefinedAs sc' (default "" (name (options d)))) ∧
    (∀ m, (∀ d, d ∈ types → name (options d) ≠ Some m) → get sc' m = get sc m).
Proof.
  induction types as [|d rest IH]; intros Hgood sc; simpl.
  - exists sc. split; [done|]. split; [done|]. split; [|done].
    intros d Hd. inversion Hd.
  - destruct (addType_returns sc d) as (tc0 & _ & Htn & ->); [apply Hgood; left|].
    destruct (IH (fun d' Hd' => Hgood d' (list_elem_of_further _ _ _ Hd'))
                 (set sc (default "" (name (options d)))
                    (with_typeExtensions
                       (<["isUserDefined" := ExtBool true]> (typeExtensions tc0)) tc0)))
      as (sc' & Hadd & Hkeep & Hreg & Hother).
    exists sc'. split; [done|]. split; [|split].
    + intros m Hm. apply Hkeep. apply userDefinedAs_set; [done | by right].
    + intros d' Hd'. apply elem_of_cons in Hd' as [->|Hd']; [|by apply Hreg].
      apply Hkeep. apply userDefinedAs_set; [done | by left].
    + intros m Hm. rewrite Hother by (intros d' Hd'; apply Hm; by right).
      unfold get, set. rewrite lookupKey_assignKey_ne; [done|].
      intros Heq. apply (Hm d); [left|].
      destruct (Hgood d) as [_ Htruthy]; [left|].
      destruct (name (options d)) as [s|]; [|done]. simpl in Heq. by subst.
Qed.

(** X19. [addTypes] with an array of descriptors that are Objects or
    Unions with a name returns; afterwards the registry holds, under the
    name of each descriptor, a type of that name flagged [isUserDefined]
    (which is what the pass looks for), the types that were so flagged
    still are, and a name that no descriptor has leads to what it led to
    before. One descriptor alone is treated as an array of one. *)
Theorem addTypes_registers (schemaComposer : SchemaComposer) (types : list createdType) :
  (∀ d, d ∈ types → wellNamed d) →
  (∃ schemaComposer',
     addTypes schemaComposer (TypeArray types) = Return schemaComposer' ∧
     (∀ d, d ∈ types → userDefinedAs schemaComposer' (default "" (name (options d)))) ∧
     (∀ m, userDefinedAs schemaComposer m → userDefinedAs schemaComposer' m) ∧
     (∀ m, (∀ d, d ∈ types → name (options d) ≠ Some m) →
           get schemaComposer' m = get schemaComposer m)) ∧
  (∀ d, addTypes schemaComposer (TypeSingle d) = addTypes schemaComposer (TypeArray [d])).
Proof.
  intros Hgood. split.
  - destruct (addTypeArray_returns types Hgood schemaComposer)
      as (sc' & Hadd & Hkeep & Hreg & Hother).
    exists sc'. done.
  - intros d. simpl. by destruct (addType schemaComposer d).
Qed.

Lemma addType_throws (schemaComposer : SchemaComposer) (type : createdType) :
  truthy (name (options type)) = false ∨ (∃ tag, createdAs type = OtherType tag) →
  ∃ e, addType schemaComposer type = Throw e.
Proof.
  intros Hbad. unfold Schema.addType, Schema.createType. simpl.
  destruct (truthy (name (options type))) eqn:Hname; simpl; [|eauto].
  destruct Hbad as [?|[tag ->]]; [done|]. simpl. eauto.
Qed.

(** X20. [addTypes] throws when a descriptor of the array has no name, or
    is neither an Object nor a Union, unless it threw before for an
    earlier one; for one descriptor without a name the error is the one of
    [createType]. *)
Theorem addTypes_throws (schemaComposer : SchemaComposer) (types : list createdType)
    (bad : createdType) :
  bad ∈ types →
  truthy (name (options bad)) = false ∨ (∃ tag, createdAs bad = OtherType tag) →
  (∃ e, addTypes schemaComposer (TypeArray types) = Throw e) ∧
  (∃ e, addTypes schemaComposer (TypeSingle bad) = Throw e) ∧
  (truthy (name (options bad)) = false →
   addTypes schemaComposer (TypeSingle bad) = Throw (Error "Missing required type name.")).
Proof.
  intros Hin Hbad. split; [|split].
  - simpl. revert schemaComposer. induction types as [|d rest IH]; intros sc; [inversion Hin|].
    simpl. apply elem_of_cons in Hin as [<-|Hin].
    + destruct (addType_throws sc bad Hbad) as [e ->]. eauto.
    + destruct (addType sc d) as [sc1|e]; [by apply IH | eauto].
  - simpl. by apply addType_throws.
  - intros Hname. simpl. unfold Schema.addType, Schema.createType. simpl.
    by rewrite Hname.
Qed.

(** X21. A reference declared through [addTypes] is wired by the pass: for
    an Object descriptor with a name other than [Query] and distinct field
    names, [addTypes] registers the type, and when [processObjectFields],
    run on the registered type, returns, a field whose named type is a
    Node type of the registry has come out of it with the target's
    resolver: its arguments are the resolver's together with the declared
    ones, and its resolve function calls the declared one (the resolver's
    if none was declared) with the resolver's as [info.originalResolver]. *)
Theorem declared_reference_is_wired (schemaComposer : SchemaComposer) (type : createdType)
    (s fieldName : string) (definition : fieldDefinition) (target : TypeComposer) :
  createdAs type = Object →
  name (options type) = Some s → s ≠ "" → s ≠ "Query" →
  NoDup (List.map fst (fieldDefinitions (options type))) →
  lookupKey fieldName (fieldDefinitions (options type)) = Some definition →
  getNamedType (Schema.type (fieldOfDefinition definition)) ≠ s →
  get schemaComposer (getNamedType (Schema.type (fieldOfDefinition definition)))
    = Some target →
  isObject target = true →
  hasInterface "Node" target = true →
  ∃ schemaComposer' typeComposer,
    addTypes schemaComposer (TypeSingle type) = Return schemaComposer' ∧
    get schemaComposer' s = Some typeComposer ∧
    ∀ typeComposer',
      processObjectFields scalarTypeResolvers schemaComposer' typeComposer
        = Return typeComposer' →
      ∃ resolver field',
        resolvers target !!
          (if isPlural (Schema.type (fieldOfDefinition definition))
           then "findMany" else "findOne")
          = Some resolver ∧
        getFieldConfig typeComposer' fieldName = Some field' ∧
        Schema.type field' = Schema.type (fieldOfDefinition definition) ∧
        args field' =
          Some (spread2 (resolverArgs resolver) (args (fieldOfDefinition definition))) ∧
        let picked := default defaultFieldResolver (resolverResolve resolver) in
        resolve field' =
          Some (WithOriginal (Some (default picked (resolve (fieldOfDefinition definition))))
                  picked).
Proof.
  intros Hkind Hname Hs Hquery Hnd Hdef Hself Htarget Htobj Htnode.
  assert (wellNamed type) as Hgood.
  { split; [by left|]. rewrite Hname. simpl. by rewrite bool_decide_eq_false_2. }
  destruct (addType_returns schemaComposer type Hgood) as (tc0 & Hcreate & Htn & Hadd).
  rewrite Hname in Htn, Hadd. simpl in Htn, Hadd.
  destruct (createType_object _ _ _ _ Hkind Hnd Hcreate)
    as (Hk & Hi & Hr & He & Hkeys & Hfields).
  set (tc := with_typeExtensions
               (<["isUserDefined" := ExtBool true]> (typeExtensions tc0)) tc0) in *.
  set (fc := withExtensions (fieldExtensionsOf (Some definition))
               (fieldOfDefinition definition)).
  assert (getFieldConfig tc fieldName = Some fc) as Hfield.
  { change (getFieldConfig tc fieldName) with (getFieldConfig tc0 fieldName).
    rewrite Hfields, Hdef. done. }
  exists (set schemaComposer s tc), tc.
  split; [done|]. split. { unfold get, set. apply lookupKey_assignKey_eq. }
  intros tc' Hp.
  destruct (processObjectFields_wired scalarTypeResolvers (set schemaComposer s tc) tc tc'
              fieldName fc target)
    as (resolver & Hres & Hcfg); try done.
  - change (fields tc) with (fields tc0). by rewrite Hkeys.
  - unfold isObject. change (kind tc) with (kind tc0). by rewrite Hk.
  - change (typeName tc) with (typeName tc0). by rewrite Htn.
  - unfold getExtension. simpl. by rewrite lookup_insert_eq.
  - unfold get, set. rewrite lookupKey_assignKey_ne; [done|]. simpl. congruence.
  - exists resolver, (wired fc resolver). done.
Qed.

End DescriptorFacts.

(** *** At the sample registry *)

Import SchemaExamples.

Lemma pass_keeps_shapes_witness : sameShapes registry wiredRegistry.
Proof.
  apply (pass_keeps_shapes ∅ registry wiredRegistry (List.map fst registry)).
  reflexivity.
Defined.

Lemma pass_skips_witness : get wiredRegistry "Author" = Some Author.
Proof.
  apply (pass_skips ∅ registry wiredRegistry (List.map fst registry) "Author" Author).
  - reflexivity.
  - reflexivity.
  - right. right. reflexivity.
Defined.

Lemma pass_throws_without_resolver_witness :
  processObjectField ∅ brokenRegistry Note "tag" =
    Throw (Error "Type Tag does not have resolver with name 'findOne'") ∧
  (∃ e, processObjectFields ∅ brokenRegistry Note = Throw e) ∧
  (∃ e, processAllObjectFields ∅ brokenRegistry (List.map fst brokenRegistry) = Throw e).
Proof.
  apply (pass_throws_without_resolver ∅ brokenRegistry "Note" Note "tag"
           {| type := Named "Tag"; args := None; resolve := None; extensions := ∅ |} Tag);
    try reflexivity.
  discriminate.
Defined.

Lemma processObjectFields_scalar_field_witness :
  ∃ typeComposer',
    processObjectFields scalars registry Post = Return typeComposer' ∧
    getFieldConfig typeComposer' "title" =
      Some {| type := Named "String";
              args := Some (spread2 (resolverArgs upperCase) (args title));
              resolve := Some (WithOriginal (Some (Authored "Post.title"))
                                 (Authored "String.upperCase"));
              extensions := ∅ |}.
Proof.
  eexists. split; [reflexivity|].
  apply (processObjectFields_scalar_field scalars registry Post _ "title" title
           {| typeName := "String"; kind := ScalarTypeComposer; fields := [];
              interfaces := []; resolvers := ∅; typeExtensions := ∅ |}).
  - apply (bool_decide_unpack _). vm_compute. exact I.
  - reflexivity.
  - discriminate.
  - reflexivity.
  - reflexivity.
  - reflexivity.
  - reflexivity.
  - reflexivity.
  - reflexivity.
Defined.

Lemma overlay_after_pass_witness :
  ∃ overlaid typeComposer'' field'' resolver,
    addResolvers wiredRegistry [("Post", [("author", excerptOverlay)])] = Return overlaid ∧
    get overlaid "Post" = Some typeComposer'' ∧
    getFieldConfig typeComposer'' "author" = Some field'' ∧
    resolvers Author !! (if isPlural (type author) then "findMany" else "findOne")
      = Some resolver ∧
    (optArgs excerptOverlay = None →
     args field'' = Some (spread2 (resolverArgs resolver) (args author))) ∧
    let picked := default defaultFieldResolver (resolverResolve resolver) in
    let closure := WithOriginal (Some (default picked (resolve author))) picked in
    resolve field'' = Some (WithOriginal (optResolve excerptOverlay) closure) ∧
    (∀ f info,
       optResolve excerptOverlay = Some f →
       call (WithOriginal (optResolve excerptOverlay) closure) info =
         call f {| Schema.fieldName := Schema.fieldName info;
                   originalResolver := Some closure |}) ∧
    (∀ info,
       call closure info =
         call (default picked (resolve author))
              {| Schema.fieldName := Schema.fieldName info;
                 originalResolver := Some picked |}).
Proof.
  apply (overlay_after_pass ∅ registry wiredRegistry "Post" Post "author" author Author
           excerptOverlay).
  - apply (bool_decide_unpack _). vm_compute. exact I.
  - reflexivity.
  - apply (bool_decide_unpack _). vm_compute. exact I.
  - reflexivity.
  - discriminate.
  - reflexivity.
  - reflexivity.
  - reflexivity.
  - reflexivity.
  - reflexivity.
  - reflexivity.
Defined.

Lemma addResolvers_frame_witness :
  List.map fst overlaidRegistry = List.map fst registry ∧
  sameTypes registry overlaidRegistry ∧
  (∀ m, m ∉ List.map fst [("Post", [("title", titleOverlay)])] →
        get overlaidRegistry m = get registry m) ∧
  (∀ m f tc,
     get registry m = Some tc →
     (∀ fs, (m, fs) ∈ [("Post", [("title", titleOverlay)])] → f ∉ List.map fst fs) →
     ∃ tc', get overlaidRegistry m = Some tc' ∧
            getFieldConfig tc' f = getFieldConfig tc f).
Proof.
  apply (addResolvers_frame [("Post", [("title", titleOverlay)])] registry overlaidRegistry).
  reflexivity.
Defined.

Lemma addResolvers_twice_witness :
  ∃ once twice typeComposer'' field'',
    addResolvers registry [("Post", [("title", excerptOverlay)])] = Return once ∧
    addResolvers once [("Post", [("title", titleOverlay)])] = Return twice ∧
    get twice "Post" = Some typeComposer'' ∧
    getFieldConfig typeComposer'' "title" = Some field'' ∧
    type field'' = default (default (type title) (optType excerptOverlay))
                     (optType titleOverlay) ∧
    args field'' = match optArgs titleOverlay with
                   | Some a => Some a
                   | None => match optArgs excerptOverlay with
                             | Some a => Some a
                             | None => args title
                             end
                   end ∧
    extensions field'' = extensions title ∧
    let prior := default defaultFieldResolver (resolve title) in
    resolve field'' =
      Some (WithOriginal (optResolve titleOverlay)
              (WithOriginal (optResolve excerptOverlay) prior)) ∧
    ∀ f info,
      optResolve titleOverlay = Some f →
      call (WithOriginal (optResolve titleOverlay)
              (WithOriginal (optResolve excerptOverlay) prior)) info =
        call f {| Schema.fieldName := Schema.fieldName info;
                  originalResolver :=
                    Some (WithOriginal (optResolve excerptOverlay) prior) |}.
Proof.
  apply (addResolvers_twice registry "Post" "title" Post title excerptOverlay titleOverlay);
    reflexivity.
Defined.

Lemma createType_fields_witness :
  createType pascal registry articleDescriptor None = Return (Some articleType) ∧
  kind articleType = ObjectTypeComposer ∧
  typeExtensions articleType = {[ "infer" := ExtBool true ]} ∧
  List.map fst (fields articleType) = ["author"; "date"] ∧
  getFieldConfig articleType "date" =
    Some {| type := Named "Date"; args := None; resolve := None;
            extensions := {[ "format" := ExtString "YYYY" ]} ∪ ∅ |} ∧
  getFieldConfig articleType "author" =
    Some {| type := Named "Author"; args := None; resolve := None; extensions := ∅ |}.
Proof.
  split; [reflexivity|].
  destruct (createType_fields pascal registry articleDescriptor None articleType eq_refl)
    as (Hk & _ & _ & He & Hkeys & Hfields).
  - apply (bool_decide_unpack _). vm_compute. exact I.
  - reflexivity.
  - split; [exact Hk|]. split; [exact He|]. split; [exact Hkeys|].
    split; [apply (Hfields "date") | apply (Hfields "author")].
Defined.

Lemma wellNamed_samples : ∀ d, d ∈ [namedDescriptor; unionDescriptor] → wellNamed d.
Proof.
  intros d Hd. repeat (apply elem_of_cons in Hd as [->|Hd]).
  - split; [by left | reflexivity].
  - split; [by right | reflexivity].
  - inversion Hd.
Qed.

Lemma addTypes_registers_witness :
  (∃ schemaComposer',
     addTypes pascal noTypeDefs registry (TypeArray [namedDescriptor; unionDescriptor])
       = Return schemaComposer' ∧
     (∀ d, d ∈ [namedDescriptor; unionDescriptor] →
           userDefinedAs schemaComposer' (default "" (name (options d)))) ∧
     (∀ m, userDefinedAs registry m → userDefinedAs schemaComposer' m) ∧
     (∀ m, (∀ d, d ∈ [namedDescriptor; unionDescriptor] → name (options d) ≠ Some m) →
           get schemaComposer' m = get registry m)) ∧
  (∀ d, addTypes pascal noTypeDefs registry (TypeSingle d)
        = addTypes pascal noTypeDefs registry (TypeArray [d])).
Proof.
  apply (addTypes_registers pascal noTypeDefs registry [namedDescriptor; unionDescriptor]
           wellNamed_samples).
Defined.

Lemma addTypes_throws_witness :
  (∃ e, addTypes pascal noTypeDefs registry (TypeArray [namedDescriptor; unnamedDescriptor])
        = Throw e) ∧
  (∃ e, addTypes pascal noTypeDefs registry (TypeSingle unnamedDescriptor) = Throw e) ∧
  (truthy (name (options unnamedDescriptor)) = false →
   addTypes pascal noTypeDefs registry (TypeSingle unnamedDescriptor)
     = Throw (Error "Missing required type name.")).
Proof.
  apply (addTypes_throws pascal noTypeDefs registry [namedDescriptor; unnamedDescriptor]
           unnamedDescriptor).
  - right. left.
  - left. reflexivity.
Defined.

Lemma declared_reference_is_wired_witness :
  ∃ schemaComposer' typeComposer,
    addTypes pascal noTypeDefs datedRegistry (TypeSingle articleDescriptor)
      = Return schemaComposer' ∧
    get schemaComposer' "Article" = Some typeComposer ∧
    (∃ typeComposer',
       processObjectFields ∅ schemaComposer' typeComposer = Return typeComposer') ∧
    ∀ typeComposer',
      processObjectFields ∅ schemaComposer' typeComposer = Return typeComposer' →
      ∃ resolver field',
        resolvers Author !! "findOne" = Some resolver ∧
        getFieldConfig typeComposer' "author" = Some field' ∧
        type field' = Named "Author" ∧
        args field' = Some (spread2 (resolverArgs resolver) None) ∧
        let picked := default defaultFieldResolver (resolverResolve resolver) in
        resolve field' = Some (WithOriginal (Some (default picked None)) picked).
Proof.
  destruct (declared_reference_is_wired pascal noTypeDefs ∅ datedRegistry articleDescriptor
              "Article" "author" (FieldType (Named "Author")) Author)
    as (sc' & tc & Hadd & Hget & Hwired);
    try reflexivity; try discriminate.
  - apply (bool_decide_unpack _). vm_compute. exact I.
  - exists sc', tc. split; [exact Hadd|]. split; [exact Hget|]. split; [|exact Hwired].
    vm_compute in Hadd. injection Hadd as <-.
    vm_compute in Hget. injection Hget as <-.
    eexists. vm_compute. reflexivity.
Defined.

End SchemaMore.
